(** * SDL generic mutex (src/thread/generic/SDL_sysmutex.c)

    A recursive mutex built on a counting semaphore.  The four lock
    operations and the constructor/destructor are embedded as programs over
    the primitive effects the C code performs (field loads and stores, the
    semaphore calls, the allocator, the thread-identity query).  Two
    semantics are given to these programs: [run], which executes one call
    to completion in a single thread, and [exec], one atomic effect at a
    time, from which the interleaving semantics of several threads is
    built.  The configuration modelled is the one with threads enabled
    (SDL_THREADS_DISABLED not defined). *)

From stdpp Require Import gmap strings.
From Stdlib Require Import ZArith Lia.

Local Open Scope Z_scope.

(** ** Machine data *)

(** Addresses of heap objects; a pointer is an address or NULL. *)
Abbreviation loc := positive (only parsing).
Abbreviation ptr := (option positive) (only parsing).
Abbreviation NULL := (@None positive) (only parsing).

(** The C type [int] (32 bits, two's complement).  Signed overflow is
    undefined in ISO C; the model takes the wrapped value. *)
Definition INT_MAX : Z := 2147483647.
Definition INT_MIN : Z := -2147483648.
Definition wrap_int (z : Z) : Z := (z + 2 ^ 31) mod 2 ^ 32 - 2 ^ 31.

(** [SDL_ThreadID]: an integral thread identity; 0 is never the identity of
    a thread, and the mutex uses it for "no owner". *)
Abbreviation SDL_ThreadID := Z (only parsing).

(** struct SDL_Mutex *)
Record SDL_Mutex : Type := mkMutex {
  recursive : Z;
  owner : SDL_ThreadID;
  sem : ptr
}.

(** Memory as [SDL_calloc] returns it: all fields zero. *)
Definition zeroed : SDL_Mutex := {| recursive := 0; owner := 0; sem := NULL |}.

Definition set_recursive (v : Z) (mx : SDL_Mutex) : SDL_Mutex :=
  {| recursive := v; owner := owner mx; sem := sem mx |}.
Definition set_owner (v : SDL_ThreadID) (mx : SDL_Mutex) : SDL_Mutex :=
  {| recursive := recursive mx; owner := v; sem := sem mx |}.
Definition set_sem (v : ptr) (mx : SDL_Mutex) : SDL_Mutex :=
  {| recursive := recursive mx; owner := owner mx; sem := v |}.

(** The part of the machine the mutex code touches: the allocated mutex
    objects, the token count of every live semaphore, and the error
    message last recorded by [SDL_SetError] / [SDL_OutOfMemory]. *)
Record world : Type := mkWorld {
  mutexes : gmap positive SDL_Mutex;
  semaphores : gmap positive N;
  last_error : option string
}.

Definition with_mutexes (h : gmap positive SDL_Mutex) (w : world) : world :=
  {| mutexes := h; semaphores := semaphores w; last_error := last_error w |}.
Definition with_semaphores (h : gmap positive N) (w : world) : world :=
  {| mutexes := mutexes w; semaphores := h; last_error := last_error w |}.
Definition with_error (msg : string) (w : world) : world :=
  {| mutexes := mutexes w; semaphores := semaphores w; last_error := Some msg |}.

(** What the platform does during one call: which thread is running, and
    whether the allocator, the semaphore constructor, the wait and the post
    report a failure. *)
Record env : Type := mkEnv {
  this_thread : SDL_ThreadID;
  calloc_fails : bool;
  create_fails : bool;
  wait_fails : bool;
  post_fails : bool
}.

(** ** Programs over the primitive effects *)

Inductive prog (A : Type) : Type :=
| Ret (a : A)
| SDL_calloc (k : ptr -> prog A)
| SDL_free (m : loc) (k : prog A)
| SDL_OutOfMemory (k : prog A)
| SDL_SetError (msg : string) (k : Z -> prog A)
| SDL_CreateSemaphore (initial_value : N) (k : ptr -> prog A)
| SDL_DestroySemaphore (s : ptr) (k : prog A)
| SDL_WaitSemaphore (s : ptr) (k : Z -> prog A)
| SDL_PostSemaphore (s : ptr) (k : Z -> prog A)
| SDL_GetCurrentThreadID (k : SDL_ThreadID -> prog A)
| load_recursive (m : loc) (k : Z -> prog A)
| store_recursive (m : loc) (v : Z) (k : prog A)
| load_owner (m : loc) (k : SDL_ThreadID -> prog A)
| store_owner (m : loc) (v : SDL_ThreadID) (k : prog A)
| load_sem (m : loc) (k : ptr -> prog A)
| store_sem (m : loc) (v : ptr) (k : prog A).

Arguments Ret {A} a.
Arguments SDL_calloc {A} k.
Arguments SDL_free {A} m k.
Arguments SDL_OutOfMemory {A} k.
Arguments SDL_SetError {A} msg k.
Arguments SDL_CreateSemaphore {A} initial_value k.
Arguments SDL_DestroySemaphore {A} s k.
Arguments SDL_WaitSemaphore {A} s k.
Arguments SDL_PostSemaphore {A} s k.
Arguments SDL_GetCurrentThreadID {A} k.
Arguments load_recursive {A} m k.
Arguments store_recursive {A} m v k.
Arguments load_owner {A} m k.
Arguments store_owner {A} m v k.
Arguments load_sem {A} m k.
Arguments store_sem {A} m v k.

Declare Scope prog_scope.
Delimit Scope prog_scope with prog.
Notation "x <- c ;; k" := (c (fun x => k))
  (at level 100, c at next level, k at level 200, right associativity,
   only parsing) : prog_scope.
Notation "c ;; k" := (c k)
  (at level 100, k at level 200, right associativity,
   only parsing) : prog_scope.

(** ** The six functions of SDL_sysmutex.c *)

Local Open Scope prog_scope.

(* Create a mutex *)
Definition SDL_CreateMutex : prog ptr :=
  mutex <- SDL_calloc ;;
  match mutex with
  | Some m =>
      s <- SDL_CreateSemaphore 1 ;;
      store_sem m s ;;
      store_recursive m 0 ;;
      store_owner m 0 ;;
      s' <- load_sem m ;;
      match s' with
      | None => SDL_free m ;; Ret NULL
      | Some _ => Ret (Some m)
      end
  | None => SDL_OutOfMemory ;; Ret NULL
  end.

(* Free the mutex *)
Definition SDL_DestroyMutex (mutex : ptr) : prog unit :=
  match mutex with
  | Some m =>
      s <- load_sem m ;;
      match s with
      | Some _ =>
          s' <- load_sem m ;;
          SDL_DestroySemaphore s' ;;
          SDL_free m ;;
          Ret tt
      | None => SDL_free m ;; Ret tt
      end
  | None => Ret tt
  end.

(* Lock the mutex *)
Definition SDL_LockMutex (mutex : ptr) : prog Z :=
  match mutex with
  | None => Ret 0
  | Some m =>
      this_thread <- SDL_GetCurrentThreadID ;;
      o <- load_owner m ;;
      if o =? this_thread then
        r <- load_recursive m ;;
        store_recursive m (wrap_int (r + 1)) ;;
        Ret 0
      else
        s <- load_sem m ;;
        _ <- SDL_WaitSemaphore s ;;
        store_owner m this_thread ;;
        store_recursive m 0 ;;
        Ret 0
  end.

(* try Lock the mutex *)
Definition SDL_TryLockMutex (mutex : ptr) : prog Z :=
  match mutex with
  | None => Ret 0
  | Some m =>
      this_thread <- SDL_GetCurrentThreadID ;;
      o <- load_owner m ;;
      if o =? this_thread then
        r <- load_recursive m ;;
        store_recursive m (wrap_int (r + 1)) ;;
        Ret 0
      else
        s <- load_sem m ;;
        retval <- SDL_WaitSemaphore s ;;
        if retval =? 0 then
          store_owner m this_thread ;;
          store_recursive m 0 ;;
          Ret retval
        else
          Ret retval
  end.

(* Unlock the mutex *)
Definition SDL_UnlockMutex (mutex : ptr) : prog Z :=
  match mutex with
  | None => Ret 0
  | Some m =>
      this_thread <- SDL_GetCurrentThreadID ;;
      o <- load_owner m ;;
      if negb (this_thread =? o) then
        e <- SDL_SetError "mutex not owned by this thread" ;;
        Ret e
      else
        r <- load_recursive m ;;
        if negb (r =? 0) then
          r' <- load_recursive m ;;
          store_recursive m (wrap_int (r' - 1)) ;;
          Ret 0
        else
          store_owner m 0 ;;
          s <- load_sem m ;;
          _ <- SDL_PostSemaphore s ;;
          Ret 0
  end.

Local Close Scope prog_scope.

(** ** Semantics of the primitive effects *)

(** What one effect does: it completes with a value in a new world, it
    suspends the calling thread, or it is undefined (an access through a
    pointer to no live object). *)
Inductive effect (X : Type) : Type :=
| Returns (x : X) (w : world)
| Suspends
| Undefined.

Arguments Returns {X} x w.
Arguments Suspends {X}.
Arguments Undefined {X}.

(** The value of [owner] while nobody holds the mutex. *)
Definition NoOwner : SDL_ThreadID := 0.

(** Modelled from the spec: the allocator, the error reporting and the
    thread identity (SDL_stdinc, SDL_error.c and SDL_thread.c are not part
    of the sources).  Section 6: allocate/free of the lock's storage,
    out-of-memory being a reportable failure; current() returns the
    identity of the calling thread, never the "no owner" value.  Section 7:
    an error is an error code plus a descriptive message; the code
    SDL_SetError returns is -1.  The allocator hands out an address that is
    not in use, with zeroed contents. *)
Definition SDL_ERROR : Z := -1.

(** Modelled from the spec: SDL_calloc for one mutex object. *)
Definition do_calloc (e : env) (w : world) : effect ptr :=
  if calloc_fails e then Returns NULL w
  else
    let m := fresh (dom (mutexes w)) in
    Returns (Some m) (with_mutexes (<[m := zeroed]> (mutexes w)) w).

(** Modelled from the spec: SDL_free of a mutex object; freeing what is not
    allocated is undefined. *)
Definition do_free (m : loc) (w : world) : effect unit :=
  match mutexes w !! m with
  | Some _ => Returns tt (with_mutexes (delete m (mutexes w)) w)
  | None => Undefined
  end.

(** Modelled from the spec: SDL_OutOfMemory reports the allocation failure. *)
Definition do_out_of_memory (w : world) : effect unit :=
  Returns tt (with_error "Out of memory" w).

(** Modelled from the spec: SDL_SetError records the message and returns
    the error code. *)
Definition do_set_error (msg : string) (w : world) : effect Z :=
  Returns SDL_ERROR (with_error msg w).

(** Modelled from the spec: SDL_GetCurrentThreadID. *)
Definition do_get_thread_id (e : env) (w : world) : effect SDL_ThreadID :=
  Returns (this_thread e) w.

(** Reading and writing a field of the mutex object at [m]; undefined when
    no object lives there. *)
Definition do_load {X} (field : SDL_Mutex -> X) (m : loc) (w : world) : effect X :=
  match mutexes w !! m with
  | Some mx => Returns (field mx) w
  | None => Undefined
  end.

Definition do_store (update : SDL_Mutex -> SDL_Mutex) (m : loc) (w : world) : effect unit :=
  match mutexes w !! m with
  | Some mx => Returns tt (with_mutexes (<[m := update mx]> (mutexes w)) w)
  | None => Undefined
  end.

(** Modelled from the spec: the semaphore collaborator (SDL_syssem.c is not
    part of the sources).  Section 6: create(initialCount); wait(), a
    blocking acquire of one token that may fail with a wait-error; post(),
    the release of one token; destroy().  Section 7 lets wait and post fail
    at platform level.  A failing call changes nothing and reports
    [SDL_ERROR]; a successful one reports 0.  A wait that does not fail
    takes a token if the count is positive and suspends the caller
    otherwise.  The spec gives no behaviour for a null or destroyed handle:
    it is left undefined. *)
Definition do_create_semaphore (e : env) (initial_value : N) (w : world) : effect ptr :=
  if create_fails e then Returns NULL w
  else
    let s := fresh (dom (semaphores w)) in
    Returns (Some s) (with_semaphores (<[s := initial_value]> (semaphores w)) w).

(** Modelled from the spec: SDL_DestroySemaphore, destroy(). *)
Definition do_destroy_semaphore (s : ptr) (w : world) : effect unit :=
  match s with
  | Some s =>
      match semaphores w !! s with
      | Some _ => Returns tt (with_semaphores (delete s (semaphores w)) w)
      | None => Undefined
      end
  | None => Undefined
  end.

(** Modelled from the spec: SDL_WaitSemaphore, the blocking wait(). *)
Definition do_wait_semaphore (e : env) (s : ptr) (w : world) : effect Z :=
  match s with
  | Some s =>
      match semaphores w !! s with
      | Some count =>
          if wait_fails e then Returns SDL_ERROR w
          else if (0 <? count)%N then
            Returns 0 (with_semaphores (<[s := N.pred count]> (semaphores w)) w)
          else Suspends
      | None => Undefined
      end
  | None => Undefined
  end.

(** Modelled from the spec: SDL_PostSemaphore, post(). *)
Definition do_post_semaphore (e : env) (s : ptr) (w : world) : effect Z :=
  match s with
  | Some s =>
      match semaphores w !! s with
      | Some count =>
          if post_fails e then Returns SDL_ERROR w
          else Returns 0 (with_semaphores (<[s := N.succ count]> (semaphores w)) w)
      | None => Undefined
      end
  | None => Undefined
  end.

(** ** Observable events, one per effect performed *)

Inductive event : Type :=
| EvCalloc (p : ptr)
| EvFree (m : loc)
| EvOutOfMemory
| EvSetError (msg : string)
| EvCreateSemaphore (initial_value : N) (s : ptr)
| EvDestroySemaphore (s : ptr)
| EvWaitSemaphore (s : ptr) (r : Z)
| EvPostSemaphore (s : ptr) (r : Z)
| EvGetCurrentThreadID (t : SDL_ThreadID)
| EvLoadRecursive (m : loc) (v : Z)
| EvStoreRecursive (m : loc) (v : Z)
| EvLoadOwner (m : loc) (v : SDL_ThreadID)
| EvStoreOwner (m : loc) (v : SDL_ThreadID)
| EvLoadSem (m : loc) (v : ptr)
| EvStoreSem (m : loc) (v : ptr).

(** ** One atomic effect at a time *)

Inductive exec_result (A : Type) : Type :=
| Finished (a : A)
| Step (ev : event) (w' : world) (p' : prog A)
| Wait
| Crash.

Arguments Finished {A} a.
Arguments Step {A} ev w' p'.
Arguments Wait {A}.
Arguments Crash {A}.

Definition next {X A} (r : effect X) (ev : X -> event) (k : X -> prog A) : exec_result A :=
  match r with
  | Returns x w' => Step (ev x) w' (k x)
  | Suspends => Wait
  | Undefined => Crash
  end.

Definition exec {A} (e : env) (w : world) (p : prog A) : exec_result A :=
  match p with
  | Ret a => Finished a
  | SDL_calloc k => next (do_calloc e w) EvCalloc k
  | SDL_free m k => next (do_free m w) (fun _ => EvFree m) (fun _ => k)
  | SDL_OutOfMemory k => next (do_out_of_memory w) (fun _ => EvOutOfMemory) (fun _ => k)
  | SDL_SetError msg k => next (do_set_error msg w) (fun _ => EvSetError msg) k
  | SDL_CreateSemaphore n k => next (do_create_semaphore e n w) (EvCreateSemaphore n) k
  | SDL_DestroySemaphore s k =>
      next (do_destroy_semaphore s w) (fun _ => EvDestroySemaphore s) (fun _ => k)
  | SDL_WaitSemaphore s k => next (do_wait_semaphore e s w) (EvWaitSemaphore s) k
  | SDL_PostSemaphore s k => next (do_post_semaphore e s w) (EvPostSemaphore s) k
  | SDL_GetCurrentThreadID k => next (do_get_thread_id e w) EvGetCurrentThreadID k
  | load_recursive m k => next (do_load recursive m w) (EvLoadRecursive m) k
  | store_recursive m v k =>
      next (do_store (set_recursive v) m w) (fun _ => EvStoreRecursive m v) (fun _ => k)
  | load_owner m k => next (do_load owner m w) (EvLoadOwner m) k
  | store_owner m v k =>
      next (do_store (set_owner v) m w) (fun _ => EvStoreOwner m v) (fun _ => k)
  | load_sem m k => next (do_load sem m w) (EvLoadSem m) k
  | store_sem m v k =>
      next (do_store (set_sem v) m w) (fun _ => EvStoreSem m v) (fun _ => k)
  end.

(** ** One call run to its end in a single thread *)

Inductive outcome (A : Type) : Type :=
| Done (a : A) (w : world)      (* the call returned a in world w *)
| Blocked (w : world)           (* the call is suspended in a semaphore wait *)
| Fault.                        (* undefined behaviour *)

Arguments Done {A} a w.
Arguments Blocked {A} w.
Arguments Fault {A}.

Definition emit {A} (ev : event) (r : list event * outcome A) : list event * outcome A :=
  (ev :: r.1, r.2).

Definition and_then {X A} (w : world) (r : effect X) (ev : X -> event)
    (rest : X -> world -> list event * outcome A) : list event * outcome A :=
  match r with
  | Returns x w' => emit (ev x) (rest x w')
  | Suspends => ([], Blocked w)
  | Undefined => ([], Fault)
  end.

Fixpoint run {A} (e : env) (p : prog A) (w : world) : list event * outcome A :=
  match p with
  | Ret a => ([], Done a w)
  | SDL_calloc k => and_then w (do_calloc e w) EvCalloc (fun x => run e (k x))
  | SDL_free m k => and_then w (do_free m w) (fun _ => EvFree m) (fun _ => run e k)
  | SDL_OutOfMemory k =>
      and_then w (do_out_of_memory w) (fun _ => EvOutOfMemory) (fun _ => run e k)
  | SDL_SetError msg k =>
      and_then w (do_set_error msg w) (fun _ => EvSetError msg) (fun x => run e (k x))
  | SDL_CreateSemaphore n k =>
      and_then w (do_create_semaphore e n w) (EvCreateSemaphore n) (fun x => run e (k x))
  | SDL_DestroySemaphore s k =>
      and_then w (do_destroy_semaphore s w) (fun _ => EvDestroySemaphore s) (fun _ => run e k)
  | SDL_WaitSemaphore s k =>
      and_then w (do_wait_semaphore e s w) (EvWaitSemaphore s) (fun x => run e (k x))
  | SDL_PostSemaphore s k =>
      and_then w (do_post_semaphore e s w) (EvPostSemaphore s) (fun x => run e (k x))
  | SDL_GetCurrentThreadID k =>
      and_then w (do_get_thread_id e w) EvGetCurrentThreadID (fun x => run e (k x))
  | load_recursive m k =>
      and_then w (do_load recursive m w) (EvLoadRecursive m) (fun x => run e (k x))
  | store_recursive m v k =>
      and_then w (do_store (set_recursive v) m w) (fun _ => EvStoreRecursive m v)
        (fun _ => run e k)
  | load_owner m k =>
      and_then w (do_load owner m w) (EvLoadOwner m) (fun x => run e (k x))
  | store_owner m v k =>
      and_then w (do_store (set_owner v) m w) (fun _ => EvStoreOwner m v) (fun _ => run e k)
  | load_sem m k => and_then w (do_load sem m w) (EvLoadSem m) (fun x => run e (k x))
  | store_sem m v k =>
      and_then w (do_store (set_sem v) m w) (fun _ => EvStoreSem m v) (fun _ => run e k)
  end.

(** [run] is [exec] repeated. *)
Lemma run_exec {A} (e : env) (p : prog A) (w : world) :
  run e p w =
  match exec e w p with
  | Finished a => ([], Done a w)
  | Step ev w' p' => emit ev (run e p' w')
  | Wait => ([], Blocked w)
  | Crash => ([], Fault)
  end.
Proof.
  destruct p; simpl; try reflexivity;
    match goal with |- and_then _ ?r _ _ = _ => destruct r; reflexivity end.
Qed.

(** ** Running the lock operations on a well-formed lock *)

Definition put_mutex (m : loc) (mx : SDL_Mutex) (w : world) : world :=
  with_mutexes (<[m := mx]> (mutexes w)) w.
Definition put_semaphore (s : loc) (count : N) (w : world) : world :=
  with_semaphores (<[s := count]> (semaphores w)) w.

(** [lock_at w m mx s count]: [m] points to the live mutex object [mx],
    whose semaphore [s] is live and holds [count] tokens. *)
Definition lock_at (w : world) (m : loc) (mx : SDL_Mutex) (s : loc) (count : N) : Prop :=
  mutexes w !! m = Some mx /\ sem mx = Some s /\ semaphores w !! s = Some count.

(** The values of the C type [int]. *)
Definition is_int (z : Z) : Prop := INT_MIN <= z <= INT_MAX.

Lemma wrap_int_id z : is_int z -> wrap_int z = z.
Proof.
  unfold is_int, INT_MIN, INT_MAX, wrap_int. intros H.
  rewrite Z.mod_small; lia.
Qed.

Lemma wrap_int_is_int z : is_int (wrap_int z).
Proof.
  unfold is_int, INT_MIN, INT_MAX, wrap_int.
  pose proof (Z.mod_pos_bound (z + 2 ^ 31) (2 ^ 32)). lia.
Qed.

Ltac world_simpl :=
  cbn [run and_then fst snd do_get_thread_id do_set_error do_out_of_memory
       mutexes semaphores last_error with_mutexes with_semaphores with_error
       put_mutex put_semaphore recursive owner sem set_recursive set_owner set_sem].

Ltac run_effects :=
  repeat first
    [ progress world_simpl
    | progress unfold do_load, do_store, do_wait_semaphore, do_post_semaphore,
        do_free, do_destroy_semaphore, put_mutex, put_semaphore
    | rewrite lookup_insert_eq
    | rewrite insert_insert_eq
    | progress change (0 =? 0) with true
    | progress change (SDL_ERROR =? 0) with false
    | match goal with
      | H : _ !! _ = _ |- _ => rewrite H
      | H : sem _ = _ |- _ => rewrite H
      | H : wait_fails _ = _ |- _ => rewrite H
      | H : post_fails _ = _ |- _ => rewrite H
      end ];
  unfold emit; cbn [fst snd].

Section OneCall.
Variables (e : env) (w : world) (m : loc) (mx : SDL_Mutex).
Hypothesis Hm : mutexes w !! m = Some mx.

Let t := this_thread e.

  (** Re-entrant path of SDL_LockMutex and SDL_TryLockMutex. *)
Definition reentrant_trace : list event :=
    [EvGetCurrentThreadID t; EvLoadOwner m t; EvLoadRecursive m (recursive mx);
     EvStoreRecursive m (wrap_int (recursive mx + 1))].

Lemma run_lock_reentrant :
    owner mx = t ->
    run e (SDL_LockMutex (Some m)) w =
    (reentrant_trace,
     Done 0 (put_mutex m (set_recursive (wrap_int (recursive mx + 1)) mx) w)).
  Proof.
    intros Ho. unfold SDL_LockMutex, reentrant_trace. run_effects.
    rewrite Ho. subst t. rewrite Z.eqb_refl. run_effects. reflexivity.
  Qed.

Lemma run_trylock_reentrant :
    owner mx = t ->
    run e (SDL_TryLockMutex (Some m)) w =
    (reentrant_trace,
     Done 0 (put_mutex m (set_recursive (wrap_int (recursive mx + 1)) mx) w)).
  Proof.
    intros Ho. unfold SDL_TryLockMutex, reentrant_trace. run_effects.
    rewrite Ho. subst t. rewrite Z.eqb_refl. run_effects. reflexivity.
  Qed.

  (** Release by a thread that is not the owner. *)
Lemma run_unlock_not_owner :
    t <> owner mx ->
    run e (SDL_UnlockMutex (Some m)) w =
    ([EvGetCurrentThreadID t; EvLoadOwner m (owner mx);
      EvSetError "mutex not owned by this thread"],
     Done SDL_ERROR (with_error "mutex not owned by this thread" w)).
  Proof.
    intros Ho. unfold SDL_UnlockMutex. run_effects.
    destruct (Z.eqb_spec (this_thread e) (owner mx)) as [Heq|_]; [done|].
    cbn [negb]. run_effects. reflexivity.
  Qed.

  (** Inner release: the counter is not zero. *)
Lemma run_unlock_inner :
    t = owner mx -> recursive mx <> 0 ->
    run e (SDL_UnlockMutex (Some m)) w =
    ([EvGetCurrentThreadID t; EvLoadOwner m t; EvLoadRecursive m (recursive mx);
      EvLoadRecursive m (recursive mx);
      EvStoreRecursive m (wrap_int (recursive mx - 1))],
     Done 0 (put_mutex m (set_recursive (wrap_int (recursive mx - 1)) mx) w)).
  Proof.
    intros Ho Hr. unfold SDL_UnlockMutex. run_effects.
    rewrite <- Ho. subst t. rewrite Z.eqb_refl. cbn [negb]. run_effects.
    destruct (Z.eqb_spec (recursive mx) 0) as [|_]; [done|].
    cbn [negb]. run_effects. reflexivity.
  Qed.

Section WithSemaphore.
Variables (s : loc) (count : N).
Hypothesis Hs : sem mx = Some s.
Hypothesis Hc : semaphores w !! s = Some count.

Definition contended_prefix : list event :=
      [EvGetCurrentThreadID t; EvLoadOwner m (owner mx); EvLoadSem m (Some s)].

    (** The state in which the caller has just become the owner. *)
Definition claimed : SDL_Mutex := set_recursive 0 (set_owner t mx).

    (** SDL_LockMutex, owner is someone else, the wait reports a failure. *)
Lemma run_lock_wait_fails :
      owner mx <> t -> wait_fails e = true ->
      run e (SDL_LockMutex (Some m)) w =
      (contended_prefix ++
         [EvWaitSemaphore (Some s) SDL_ERROR; EvStoreOwner m t; EvStoreRecursive m 0],
       Done 0 (put_mutex m claimed w)).
    Proof.
      intros Ho Hw. unfold SDL_LockMutex, contended_prefix, claimed. run_effects.
      destruct (Z.eqb_spec (owner mx) (this_thread e)) as [|_]; [done|].
      run_effects. reflexivity.
    Qed.

    (** SDL_LockMutex, owner is someone else, a token is available. *)
Lemma run_lock_takes_token :
      owner mx <> t -> wait_fails e = false -> (0 < count)%N ->
      run e (SDL_LockMutex (Some m)) w =
      (contended_prefix ++
         [EvWaitSemaphore (Some s) 0; EvStoreOwner m t; EvStoreRecursive m 0],
       Done 0 (put_mutex m claimed (put_semaphore s (N.pred count) w))).
    Proof.
      intros Ho Hw Hpos. unfold SDL_LockMutex, contended_prefix, claimed. run_effects.
      destruct (Z.eqb_spec (owner mx) (this_thread e)) as [|_]; [done|].
      run_effects. destruct (N.ltb_spec 0 count); [|lia].
      run_effects. reflexivity.
    Qed.

    (** SDL_LockMutex, owner is someone else, no token: the caller waits. *)
Lemma run_lock_blocks :
      owner mx <> t -> wait_fails e = false -> count = 0%N ->
      run e (SDL_LockMutex (Some m)) w = (contended_prefix, Blocked w).
    Proof.
      intros Ho Hw ->. unfold SDL_LockMutex, contended_prefix. run_effects.
      destruct (Z.eqb_spec (owner mx) (this_thread e)) as [|_]; [done|].
      run_effects. reflexivity.
    Qed.

    (** The same three cases of SDL_TryLockMutex. *)
Lemma run_trylock_wait_fails :
      owner mx <> t -> wait_fails e = true ->
      run e (SDL_TryLockMutex (Some m)) w =
      (contended_prefix ++ [EvWaitSemaphore (Some s) SDL_ERROR], Done SDL_ERROR w).
    Proof.
      intros Ho Hw. unfold SDL_TryLockMutex, contended_prefix. run_effects.
      destruct (Z.eqb_spec (owner mx) (this_thread e)) as [|_]; [done|].
      run_effects. reflexivity.
    Qed.

Lemma run_trylock_takes_token :
      owner mx <> t -> wait_fails e = false -> (0 < count)%N ->
      run e (SDL_TryLockMutex (Some m)) w =
      (contended_prefix ++
         [EvWaitSemaphore (Some s) 0; EvStoreOwner m t; EvStoreRecursive m 0],
       Done 0 (put_mutex m claimed (put_semaphore s (N.pred count) w))).
    Proof.
      intros Ho Hw Hpos. unfold SDL_TryLockMutex, contended_prefix, claimed. run_effects.
      destruct (Z.eqb_spec (owner mx) (this_thread e)) as [|_]; [done|].
      run_effects. destruct (N.ltb_spec 0 count); [|lia].
      run_effects. reflexivity.
    Qed.

Lemma run_trylock_blocks :
      owner mx <> t -> wait_fails e = false -> count = 0%N ->
      run e (SDL_TryLockMutex (Some m)) w = (contended_prefix, Blocked w).
    Proof.
      intros Ho Hw ->. unfold SDL_TryLockMutex, contended_prefix. run_effects.
      destruct (Z.eqb_spec (owner mx) (this_thread e)) as [|_]; [done|].
      run_effects. reflexivity.
    Qed.

    (** Outermost release: the counter is zero. *)
Definition released : SDL_Mutex := set_owner NoOwner mx.

Lemma run_unlock_outermost :
      t = owner mx -> recursive mx = 0 ->
      run e (SDL_UnlockMutex (Some m)) w =
      ([EvGetCurrentThreadID t; EvLoadOwner m t; EvLoadRecursive m 0;
        EvStoreOwner m NoOwner; EvLoadSem m (Some s);
        EvPostSemaphore (Some s) (if post_fails e then SDL_ERROR else 0)],
       Done 0 (if post_fails e then put_mutex m released w
               else put_semaphore s (N.succ count) (put_mutex m released w))).
    Proof.
      intros Ho Hr. unfold SDL_UnlockMutex, released. run_effects.
      rewrite <- Ho. subst t. rewrite Z.eqb_refl. cbn [negb]. run_effects.
      rewrite Hr. cbn [Z.eqb negb]. run_effects.
      destruct (post_fails e); run_effects; reflexivity.
    Qed.
End WithSemaphore.
End OneCall.

(** ** Concrete threads and locks used in the examples *)

(** Thread [t] on a platform where nothing fails. *)
Definition thread (t : SDL_ThreadID) : env :=
  {| this_thread := t; calloc_fails := false; create_fails := false;
     wait_fails := false; post_fails := false |}.

(** Thread [t] on a platform whose semaphore wait reports a failure. *)
Definition thread_wait_failing (t : SDL_ThreadID) : env :=
  {| this_thread := t; calloc_fails := false; create_fails := false;
     wait_fails := true; post_fails := false |}.

(** One mutex at address 1 with its semaphore at address 1. *)
Definition lock_world (mx_owner : SDL_ThreadID) (depth : Z) (tokens : N) : world :=
  {| mutexes := {[ 1%positive := mkMutex depth mx_owner (Some 1%positive) ]};
     semaphores := {[ 1%positive := tokens ]};
     last_error := None |}.

Definition free_lock : world := lock_world NoOwner 0 1.
Definition held_by (t : SDL_ThreadID) (depth : Z) : world := lock_world t depth 0.

Definition empty_world : world :=
  {| mutexes := ∅; semaphores := ∅; last_error := None |}.

Lemma lock_world_at o d c :
  lock_at (lock_world o d c) 1%positive (mkMutex d o (Some 1%positive)) 1%positive c.
Proof. repeat split; apply lookup_singleton_eq. Qed.

(** Thread 1 locks the free lock, locks it again, and unlocks it twice. *)
Example lock_free_lock :
  (run (thread 1) (SDL_LockMutex (Some 1%positive)) free_lock).1 =
  [EvGetCurrentThreadID 1; EvLoadOwner 1%positive 0;
   EvLoadSem 1%positive (Some 1%positive); EvWaitSemaphore (Some 1%positive) 0;
   EvStoreOwner 1%positive 1; EvStoreRecursive 1%positive 0].
Proof. reflexivity. Qed.

Example lock_again :
  (run (thread 1) (SDL_LockMutex (Some 1%positive)) (held_by 1 0)).1 =
  [EvGetCurrentThreadID 1; EvLoadOwner 1%positive 1; EvLoadRecursive 1%positive 0;
   EvStoreRecursive 1%positive 1].
Proof. reflexivity. Qed.

Example unlock_inner :
  (run (thread 1) (SDL_UnlockMutex (Some 1%positive)) (held_by 1 1)).1 =
  [EvGetCurrentThreadID 1; EvLoadOwner 1%positive 1; EvLoadRecursive 1%positive 1;
   EvLoadRecursive 1%positive 1; EvStoreRecursive 1%positive 0].
Proof. reflexivity. Qed.

Example unlock_outermost :
  (run (thread 1) (SDL_UnlockMutex (Some 1%positive)) (held_by 1 0)).1 =
  [EvGetCurrentThreadID 1; EvLoadOwner 1%positive 1; EvLoadRecursive 1%positive 0;
   EvStoreOwner 1%positive 0; EvLoadSem 1%positive (Some 1%positive);
   EvPostSemaphore (Some 1%positive) 0].
Proof. reflexivity. Qed.

Example create_in_empty_world :
  (run (thread 1) SDL_CreateMutex empty_world).1 =
  [EvCalloc (Some 1%positive); EvCreateSemaphore 1 (Some 1%positive);
   EvStoreSem 1%positive (Some 1%positive); EvStoreRecursive 1%positive 0;
   EvStoreOwner 1%positive 0; EvLoadSem 1%positive (Some 1%positive)].
Proof. reflexivity. Qed.

Example destroy_created :
  run (thread 1) (SDL_DestroyMutex (Some 1%positive)) free_lock =
  ([EvLoadSem 1%positive (Some 1%positive); EvLoadSem 1%positive (Some 1%positive);
    EvDestroySemaphore (Some 1%positive); EvFree 1%positive],
   Done tt empty_world).
Proof. reflexivity. Qed.

(** ** Classification of events *)

Definition is_semaphore_op (ev : event) : bool :=
  match ev with
  | EvCreateSemaphore _ _ | EvDestroySemaphore _
  | EvWaitSemaphore _ _ | EvPostSemaphore _ _ => true
  | _ => false
  end.

Definition is_wait (ev : event) : bool :=
  match ev with EvWaitSemaphore _ _ => true | _ => false end.
Definition is_post (ev : event) : bool :=
  match ev with EvPostSemaphore _ _ => true | _ => false end.
Definition is_store_owner (ev : event) : bool :=
  match ev with EvStoreOwner _ _ => true | _ => false end.

(** * Null locks *)

(** C8. Null-safety: SDL_LockMutex, SDL_TryLockMutex and SDL_UnlockMutex on
    a NULL mutex perform no effect and return 0; SDL_DestroyMutex on NULL
    performs no effect and returns.  None of them can fault. *)
Theorem null_mutex_is_noop (e : env) (w : world) :
  run e (SDL_LockMutex NULL) w = ([], Done 0 w) /\
  run e (SDL_TryLockMutex NULL) w = ([], Done 0 w) /\
  run e (SDL_UnlockMutex NULL) w = ([], Done 0 w) /\
  run e (SDL_DestroyMutex NULL) w = ([], Done tt w).
Proof. repeat split. Qed.

(** * Release by a thread that is not the owner *)

(** C4. When the caller's identity differs from [owner], SDL_UnlockMutex
    returns the error status of SDL_SetError, records the message
    "mutex not owned by this thread", performs no store and no semaphore
    operation, and leaves every mutex and every semaphore as it was. *)
Theorem SDL_UnlockMutex_not_owner (e : env) (w : world) (m : loc) (mx : SDL_Mutex) :
  mutexes w !! m = Some mx ->
  this_thread e <> owner mx ->
  exists w',
    run e (SDL_UnlockMutex (Some m)) w =
      ([EvGetCurrentThreadID (this_thread e); EvLoadOwner m (owner mx);
        EvSetError "mutex not owned by this thread"], Done SDL_ERROR w') /\
    SDL_ERROR <> 0 /\
    mutexes w' = mutexes w /\ semaphores w' = semaphores w /\
    last_error w' = Some "mutex not owned by this thread"%string.
Proof.
  intros Hm Ho. eexists. split; [apply (run_unlock_not_owner e w m mx Hm Ho)|].
  repeat split. discriminate.
Qed.

Lemma SDL_UnlockMutex_not_owner_witness :
  exists w',
    run (thread 2) (SDL_UnlockMutex (Some 1%positive)) (held_by 1 0) =
      ([EvGetCurrentThreadID 2; EvLoadOwner 1%positive 1;
        EvSetError "mutex not owned by this thread"], Done SDL_ERROR w') /\
    SDL_ERROR <> 0 /\
    mutexes w' = mutexes (held_by 1 0) /\ semaphores w' = semaphores (held_by 1 0) /\
    last_error w' = Some "mutex not owned by this thread"%string.
Proof.
  apply (SDL_UnlockMutex_not_owner (thread 2) (held_by 1 0) 1%positive
           (mkMutex 0 1 (Some 1%positive))).
  - apply lookup_singleton_eq.
  - simpl. lia.
Defined.

(** The free lock is a case of C4: no thread has the identity [NoOwner]. *)
Lemma SDL_UnlockMutex_free_lock (e : env) (w : world) (m : loc) (mx : SDL_Mutex) :
  mutexes w !! m = Some mx -> owner mx = NoOwner -> this_thread e <> NoOwner ->
  exists w',
    (run e (SDL_UnlockMutex (Some m)) w).2 = Done SDL_ERROR w' /\
    mutexes w' = mutexes w /\ semaphores w' = semaphores w.
Proof.
  intros Hm Ho Ht. eexists.
  rewrite (run_unlock_not_owner e w m mx Hm) by congruence.
  repeat split.
Qed.

(** * Re-entrant acquisition *)

(** C3, amended.  When [owner] is the caller and the counter is below
    INT_MAX, SDL_LockMutex adds exactly one to [recursive], performs no
    semaphore operation, leaves [owner] (and every semaphore) unchanged and
    returns 0. *)
Theorem SDL_LockMutex_reentrant (e : env) (w : world) (m : loc) (mx : SDL_Mutex) :
  mutexes w !! m = Some mx ->
  owner mx = this_thread e ->
  is_int (recursive mx) ->
  recursive mx < INT_MAX ->
  exists tr w',
    run e (SDL_LockMutex (Some m)) w = (tr, Done 0 w') /\
    mutexes w' =
      <[m := {| recursive := recursive mx + 1; owner := owner mx; sem := sem mx |}]>
        (mutexes w) /\
    semaphores w' = semaphores w /\
    forallb (fun ev => negb (is_semaphore_op ev)) tr = true.
Proof.
  intros Hm Ho [Hlo Hhi] Hlt. do 2 eexists.
  split; [apply (run_lock_reentrant e w m mx Hm Ho)|].
  rewrite wrap_int_id by (unfold is_int; lia).
  repeat split.
Qed.

Lemma SDL_LockMutex_reentrant_witness :
  exists tr w',
    run (thread 1) (SDL_LockMutex (Some 1%positive)) (held_by 1 3) = (tr, Done 0 w') /\
    mutexes w' =
      <[1%positive := {| recursive := 3 + 1; owner := 1; sem := Some 1%positive |}]>
        (mutexes (held_by 1 3)) /\
    semaphores w' = semaphores (held_by 1 3) /\
    forallb (fun ev => negb (is_semaphore_op ev)) tr = true.
Proof.
  apply (SDL_LockMutex_reentrant (thread 1) (held_by 1 3) 1%positive
           (mkMutex 3 1 (Some 1%positive))).
  - apply lookup_singleton_eq.
  - reflexivity.
  - unfold is_int, INT_MIN, INT_MAX. simpl. lia.
  - unfold INT_MAX. simpl. lia.
Defined.

(** C3 as stated fails at the top of the [int] range: with
    [recursive] = INT_MAX the stored counter is INT_MIN, not INT_MAX + 1. *)
Lemma SDL_LockMutex_reentrant_overflow :
  let w := held_by 1 INT_MAX in
  let mx := mkMutex INT_MAX 1 (Some 1%positive) in
  mutexes w !! 1%positive = Some mx /\
  owner mx = this_thread (thread 1) /\
  exists w' mx',
    (run (thread 1) (SDL_LockMutex (Some 1%positive)) w).2 = Done 0 w' /\
    mutexes w' !! 1%positive = Some mx' /\
    recursive mx' = INT_MIN /\
    recursive mx' <> recursive mx + 1.
Proof.
  intros w mx. split; [apply lookup_singleton_eq|]. split; [reflexivity|].
  do 2 eexists. split.
  - rewrite (run_lock_reentrant (thread 1) w 1%positive mx); [reflexivity| |reflexivity].
    apply lookup_singleton_eq.
  - split; [apply lookup_insert_eq|]. split; [reflexivity|]. discriminate.
Qed.

(** * SDL_TryLockMutex on a lock held by another thread *)

(** C2 fails on the code: SDL_TryLockMutex calls SDL_WaitSemaphore, the
    blocking wait.  Thread 2 trying a lock held by thread 1 (no token in
    the semaphore) is suspended inside the wait; no status is returned.
    [owner] and [recursive] are indeed left as they were. *)
Theorem SDL_TryLockMutex_suspends_when_held :
  run (thread 2) (SDL_TryLockMutex (Some 1%positive)) (held_by 1 0) =
  ([EvGetCurrentThreadID 2; EvLoadOwner 1%positive 1;
    EvLoadSem 1%positive (Some 1%positive)],
   Blocked (held_by 1 0)).
Proof.
  destruct (lock_world_at 1 0 0) as (Hm & Hs & Hc).
  apply (run_trylock_blocks (thread 2) _ _ _ Hm _ _ Hs Hc); [discriminate|done..].
Qed.

(** * SDL_LockMutex always returns 0 *)

(** C10. SDL_LockMutex on NULL returns 0.  On a well-formed lock it returns
    0 on the re-entrant path, returns 0 when a token is taken, and also
    returns 0 when the wait reports a failure: [owner] is then the caller
    and [recursive] is 0 although no token was taken.  The only other
    outcome is that the caller waits for a token; no run returns a status
    other than 0. *)
Theorem SDL_LockMutex_returns_zero (e : env) (w : world) (m s : loc)
    (mx : SDL_Mutex) (count : N) :
  lock_at w m mx s count ->
  (run e (SDL_LockMutex NULL) w).2 = Done 0 w /\
  (run e (SDL_LockMutex (Some m)) w).2 =
    (if owner mx =? this_thread e then
       Done 0 (put_mutex m (set_recursive (wrap_int (recursive mx + 1)) mx) w)
     else if wait_fails e then
       Done 0 (put_mutex m (mkMutex 0 (this_thread e) (sem mx)) w)
     else if (0 <? count)%N then
       Done 0 (put_mutex m (mkMutex 0 (this_thread e) (sem mx))
                 (put_semaphore s (N.pred count) w))
     else Blocked w) /\
  (forall r w', (run e (SDL_LockMutex (Some m)) w).2 = Done r w' -> r = 0).
Proof.
  intros (Hm & Hs & Hc). split; [reflexivity|].
  assert (Heq : (run e (SDL_LockMutex (Some m)) w).2 =
    (if owner mx =? this_thread e then
       Done 0 (put_mutex m (set_recursive (wrap_int (recursive mx + 1)) mx) w)
     else if wait_fails e then
       Done 0 (put_mutex m (mkMutex 0 (this_thread e) (sem mx)) w)
     else if (0 <? count)%N then
       Done 0 (put_mutex m (mkMutex 0 (this_thread e) (sem mx))
                 (put_semaphore s (N.pred count) w))
     else Blocked w)).
  { destruct (Z.eqb_spec (owner mx) (this_thread e)) as [Ho|Ho].
    - by rewrite (run_lock_reentrant e w m mx Hm Ho).
    - destruct (wait_fails e) eqn:Hw.
      + by rewrite (run_lock_wait_fails e w m mx Hm s count Hs Hc Ho Hw).
      + destruct (N.ltb_spec 0 count) as [Hpos|Hz].
        * by rewrite (run_lock_takes_token e w m mx Hm s count Hs Hc Ho Hw Hpos).
        * rewrite (run_lock_blocks e w m mx Hm s count Hs Hc Ho Hw); [done|lia]. }
  split; [exact Heq|].
  intros r w'. rewrite Heq.
  repeat match goal with |- context [if ?b then _ else _] => destruct b end;
    congruence.
Qed.

Lemma SDL_LockMutex_returns_zero_witness :
  (run (thread_wait_failing 2) (SDL_LockMutex NULL) (held_by 1 0)).2 =
    Done 0 (held_by 1 0) /\
  (run (thread_wait_failing 2) (SDL_LockMutex (Some 1%positive)) (held_by 1 0)).2 =
    Done 0 (put_mutex 1%positive (mkMutex 0 2 (Some 1%positive)) (held_by 1 0)) /\
  (forall r w',
     (run (thread_wait_failing 2) (SDL_LockMutex (Some 1%positive)) (held_by 1 0)).2 =
       Done r w' -> r = 0).
Proof.
  exact (SDL_LockMutex_returns_zero (thread_wait_failing 2) (held_by 1 0)
           1%positive 1%positive (mkMutex 0 1 (Some 1%positive)) 0%N
           (lock_world_at 1 0 0)).
Defined.

(** * Construction *)

Definition fresh_mutex (w : world) : loc := fresh (dom (mutexes w)).
Definition fresh_semaphore (w : world) : loc := fresh (dom (semaphores w)).

Lemma fresh_mutex_unallocated w : mutexes w !! fresh_mutex w = None.
Proof. unfold fresh_mutex. apply not_elem_of_dom, is_fresh. Qed.

Lemma fresh_semaphore_unallocated w : semaphores w !! fresh_semaphore w = None.
Proof. unfold fresh_semaphore. apply not_elem_of_dom, is_fresh. Qed.

Lemma run_create_calloc_fails (e : env) (w : world) :
  calloc_fails e = true ->
  run e SDL_CreateMutex w =
  ([EvCalloc NULL; EvOutOfMemory], Done NULL (with_error "Out of memory" w)).
Proof.
  intros H. unfold SDL_CreateMutex. cbn [run]. unfold do_calloc. rewrite H.
  run_effects. reflexivity.
Qed.

Lemma run_create_semaphore_fails (e : env) (w : world) :
  calloc_fails e = false -> create_fails e = true ->
  let m := fresh_mutex w in
  run e SDL_CreateMutex w =
  ([EvCalloc (Some m); EvCreateSemaphore 1 NULL; EvStoreSem m NULL;
    EvStoreRecursive m 0; EvStoreOwner m 0; EvLoadSem m NULL; EvFree m],
   Done NULL (with_mutexes (delete m (<[m := zeroed]> (mutexes w))) w)).
Proof.
  intros H1 H2 m. unfold SDL_CreateMutex. cbn [run]. unfold do_calloc. rewrite H1.
  cbn [and_then run]. unfold do_create_semaphore. rewrite H2.
  run_effects. fold (fresh_mutex w). fold m.
  by rewrite !delete_insert_eq.
Qed.

Lemma run_create_succeeds (e : env) (w : world) :
  calloc_fails e = false -> create_fails e = false ->
  let m := fresh_mutex w in
  let s := fresh_semaphore w in
  run e SDL_CreateMutex w =
  ([EvCalloc (Some m); EvCreateSemaphore 1 (Some s); EvStoreSem m (Some s);
    EvStoreRecursive m 0; EvStoreOwner m 0; EvLoadSem m (Some s)],
   Done (Some m)
     (put_mutex m {| recursive := 0; owner := NoOwner; sem := Some s |}
        (put_semaphore s 1 w))).
Proof.
  intros H1 H2 m s. unfold SDL_CreateMutex. cbn [run]. unfold do_calloc. rewrite H1.
  cbn [and_then run]. unfold do_create_semaphore. rewrite H2.
  run_effects. reflexivity.
Qed.

(** C7. SDL_CreateMutex either returns a pointer to a new mutex object, at
    an address that was not allocated, with [owner] = 0, [recursive] = 0
    and a new semaphore holding one token; or it returns NULL.  It returns
    NULL exactly when the allocation fails (nothing is allocated,
    SDL_OutOfMemory is reported) or when the semaphore cannot be created:
    in that case the object just allocated is freed, last of all, and the
    allocated mutexes and semaphores are those from before the call. *)
Theorem SDL_CreateMutex_outcome (e : env) (w : world) :
  let r := run e SDL_CreateMutex w in
  match r.2 with
  | Done (Some m) w' =>
      calloc_fails e = false /\ create_fails e = false /\
      mutexes w !! m = None /\
      exists s, semaphores w !! s = None /\
        w' = put_mutex m {| recursive := 0; owner := NoOwner; sem := Some s |}
               (put_semaphore s 1 w)
  | Done None w' =>
      mutexes w' = mutexes w /\ semaphores w' = semaphores w /\
      ((calloc_fails e = true /\ r.1 = [EvCalloc NULL; EvOutOfMemory]) \/
       (calloc_fails e = false /\ create_fails e = true /\
        exists m, mutexes w !! m = None /\
          r.1 = [EvCalloc (Some m); EvCreateSemaphore 1 NULL; EvStoreSem m NULL;
                 EvStoreRecursive m 0; EvStoreOwner m 0; EvLoadSem m NULL;
                 EvFree m]))
  | Blocked _ | Fault => False
  end.
Proof.
  pose proof (fresh_mutex_unallocated w) as Hfresh.
  pose proof (fresh_semaphore_unallocated w) as Hfresh'.
  cbn zeta. destruct (calloc_fails e) eqn:Hcalloc.
  - rewrite (run_create_calloc_fails e w Hcalloc). cbn. repeat split. by left.
  - destruct (create_fails e) eqn:Hcreate.
    + rewrite (run_create_semaphore_fails e w Hcalloc Hcreate). cbn.
      split; [by rewrite delete_insert_id|]. split; [done|].
      right. repeat split. by exists (fresh_mutex w).
    + rewrite (run_create_succeeds e w Hcalloc Hcreate). cbn.
      repeat split; [done|]. by exists (fresh_semaphore w).
Qed.

(** * The three lock operations *)

Inductive lock_op : Type := Acquire | TryAcquire | Release.

Definition call (o : lock_op) (mutex : ptr) : prog Z :=
  match o with
  | Acquire => SDL_LockMutex mutex
  | TryAcquire => SDL_TryLockMutex mutex
  | Release => SDL_UnlockMutex mutex
  end.

(** The world a call leaves behind, whether it returned or is suspended. *)
Definition world_after {A} (r : outcome A) : option world :=
  match r with
  | Done _ w => Some w
  | Blocked w => Some w
  | Fault => None
  end.

Lemma lock_at_put_mutex w m mx s count mx' :
  lock_at w m mx s count -> sem mx' = Some s ->
  lock_at (put_mutex m mx' w) m mx' s count.
Proof.
  intros (Hm & Hs & Hc) Hs'. repeat split; [apply lookup_insert_eq|done..].
Qed.

Lemma lock_at_put_semaphore w m mx s count count' :
  lock_at w m mx s count -> lock_at (put_semaphore s count' w) m mx s count'.
Proof.
  intros (Hm & Hs & Hc). repeat split; [done..|apply lookup_insert_eq].
Qed.

(** A mutex returned by SDL_CreateMutex is well formed, free, with a zero
    counter and one token. *)
Lemma created_lock_at (e : env) (w0 w : world) (m : loc) :
  (run e SDL_CreateMutex w0).2 = Done (Some m) w ->
  exists s, lock_at w m {| recursive := 0; owner := NoOwner; sem := Some s |} s 1.
Proof.
  intros Hrun. destruct (calloc_fails e) eqn:Hcalloc.
  { by rewrite (run_create_calloc_fails e w0 Hcalloc) in Hrun. }
  destruct (create_fails e) eqn:Hcreate.
  { by rewrite (run_create_semaphore_fails e w0 Hcalloc Hcreate) in Hrun. }
  rewrite (run_create_succeeds e w0 Hcalloc Hcreate) in Hrun.
  cbn in Hrun. injection Hrun as <- <-. exists (fresh_semaphore w0).
  repeat split; apply lookup_insert_eq.
Qed.

Definition created_world : world :=
  put_mutex 1%positive {| recursive := 0; owner := NoOwner; sem := Some 1%positive |}
    (put_semaphore 1%positive 1 empty_world).

(** * Recursion: N acquisitions, N releases *)

(** Successive calls of one operation by successive platform states; each
    must return 0.  The result is the concatenated trace and the last
    world. *)
Fixpoint calls (p : prog Z) (es : list env) (w : world) : option (list event * world) :=
  match es with
  | [] => Some ([], w)
  | e :: es' =>
      match run e p w with
      | (tr, Done r w') =>
          if r =? 0 then
            match calls p es' w' with
            | Some (tr', w'') => Some (tr ++ tr', w'')
            | None => None
            end
          else None
      | _ => None
      end
  end.

Definition no_semaphore_op (tr : list event) : bool :=
  forallb (fun ev => negb (is_semaphore_op ev)) tr.

Definition by_thread (T : SDL_ThreadID) (es : list env) : Prop :=
  Forall (fun e => this_thread e = T) es.

Lemma wrap_int_add a b : wrap_int (wrap_int a + b) = wrap_int (a + b).
Proof.
  unfold wrap_int. f_equal.
  replace ((a + 2 ^ 31) mod 2 ^ 32 - 2 ^ 31 + b + 2 ^ 31)
    with ((a + 2 ^ 31) mod 2 ^ 32 + b) by lia.
  rewrite Zplus_mod_idemp_l. f_equal. lia.
Qed.

Lemma calls_app p es1 es2 w tr1 w1 :
  calls p es1 w = Some (tr1, w1) ->
  calls p (es1 ++ es2) w =
  match calls p es2 w1 with
  | Some (tr2, w2) => Some (tr1 ++ tr2, w2)
  | None => None
  end.
Proof.
  revert w tr1 w1. induction es1 as [|e es1 IH]; intros w tr1 w1; cbn [calls app].
  - intros [= <- <-]. by destruct (calls p es2 w) as [[]|].
  - destruct (run e p w) as [tr [r w'| |]]; try done.
    destruct (r =? 0); [|done].
    destruct (calls p es1 w') as [[tr' w'']|] eqn:Hc; [|done].
    intros [= <- <-]. rewrite (IH _ _ _ Hc).
    destruct (calls p es2 w'') as [[]|]; [|done]. by rewrite app_assoc.
Qed.

Lemma no_semaphore_op_app tr1 tr2 :
  no_semaphore_op tr1 = true -> no_semaphore_op tr2 = true ->
  no_semaphore_op (tr1 ++ tr2) = true.
Proof. unfold no_semaphore_op. rewrite forallb_app. by intros -> ->. Qed.

Lemma no_semaphore_op_filter tr :
  no_semaphore_op tr = true -> List.filter is_semaphore_op tr = [].
Proof.
  induction tr as [|ev tr IH]; [done|]. cbn.
  destruct (is_semaphore_op ev); cbn; [done|]. exact IH.
Qed.

(** Re-entrant acquisitions only move the counter (modulo 2^32). *)
Lemma reentrant_locks (T : SDL_ThreadID) (m s : loc) (es : list env) :
  forall (w : world) (mx : SDL_Mutex) (count : N),
  lock_at w m mx s count -> owner mx = T -> is_int (recursive mx) ->
  by_thread T es ->
  exists tr w',
    calls (SDL_LockMutex (Some m)) es w = Some (tr, w') /\
    lock_at w' m (set_recursive (wrap_int (recursive mx + Z.of_nat (length es))) mx)
      s count /\
    semaphores w' = semaphores w /\ no_semaphore_op tr = true.
Proof.
  induction es as [|e es IH]; intros w mx count Hat Ho Hint Hes.
  - exists [], w. cbn [calls length]. repeat split; try apply Hat.
    rewrite Z.add_0_r, (wrap_int_id _ Hint). destruct mx; apply Hat.
  - apply Forall_cons in Hes as [He Hes']. destruct Hat as (Hm & Hs & Hc).
    assert (Ho' : owner mx = this_thread e) by congruence.
    set (mx1 := set_recursive (wrap_int (recursive mx + 1)) mx).
    destruct (IH (put_mutex m mx1 w) mx1 count) as (tr & w' & Hcalls & Hat' & Hsem & Htr).
    { by apply (lock_at_put_mutex w m mx). }
    { exact Ho. }
    { apply wrap_int_is_int. }
    { exact Hes'. }
    cbn [calls]. rewrite (run_lock_reentrant e w m mx Hm Ho').
    cbv beta iota. change (0 =? 0) with true. cbv beta iota.
    fold mx1. rewrite Hcalls. do 2 eexists. split; [reflexivity|].
    split; [|split; [exact Hsem|by apply no_semaphore_op_app]].
    subst mx1. cbn [set_recursive recursive owner sem] in Hat'.
    rewrite wrap_int_add in Hat'.
    replace (recursive mx + Z.of_nat (length (e :: es)))
      with (recursive mx + 1 + Z.of_nat (length es)) by (cbn [length]; lia).
    exact Hat'.
Qed.

(** Inner releases count the counter down and keep the owner. *)
Lemma inner_unlocks (T : SDL_ThreadID) (m s : loc) (es : list env) :
  forall (w : world) (mx : SDL_Mutex) (count : N),
  lock_at w m mx s count -> owner mx = T ->
  Z.of_nat (length es) <= recursive mx <= INT_MAX ->
  by_thread T es ->
  exists tr w',
    calls (SDL_UnlockMutex (Some m)) es w = Some (tr, w') /\
    lock_at w' m (set_recursive (recursive mx - Z.of_nat (length es)) mx) s count /\
    semaphores w' = semaphores w /\ no_semaphore_op tr = true.
Proof.
  induction es as [|e es IH]; intros w mx count Hat Ho Hr Hes.
  - exists [], w. cbn [calls length]. repeat split; try apply Hat.
    rewrite Z.sub_0_r. destruct mx; apply Hat.
  - apply Forall_cons in Hes as [He Hes']. destruct Hat as (Hm & Hs & Hc).
    assert (Ho' : this_thread e = owner mx) by congruence.
    cbn [length] in Hr.
    assert (Hwrap : wrap_int (recursive mx - 1) = recursive mx - 1).
    { apply wrap_int_id. unfold is_int, INT_MIN, INT_MAX in *. lia. }
    set (mx1 := set_recursive (recursive mx - 1) mx).
    destruct (IH (put_mutex m mx1 w) mx1 count) as (tr & w' & Hcalls & Hat' & Hsem & Htr).
    { by apply (lock_at_put_mutex w m mx). }
    { exact Ho. }
    { subst mx1. cbn. lia. }
    { exact Hes'. }
    cbn [calls]. rewrite (run_unlock_inner e w m mx Hm Ho') by lia.
    rewrite Hwrap. cbv beta iota. change (0 =? 0) with true. cbv beta iota.
    fold mx1. rewrite Hcalls.
    do 2 eexists. split; [reflexivity|].
    split; [|split; [exact Hsem|by apply no_semaphore_op_app]].
    subst mx1. cbn [set_recursive recursive owner sem] in Hat'.
    replace (recursive mx - Z.of_nat (length (e :: es)))
      with (recursive mx - 1 - Z.of_nat (length es)) by (cbn [length]; lia).
    exact Hat'.
Qed.

(** The first acquisition of a free lock, when the wait does not suspend. *)
Lemma first_lock (e : env) (w : world) (m s : loc) (mx : SDL_Mutex) (count : N) :
  lock_at w m mx s count -> owner mx <> this_thread e ->
  wait_fails e = true \/ (0 < count)%N ->
  exists tr w' count',
    run e (SDL_LockMutex (Some m)) w = (tr, Done 0 w') /\
    lock_at w' m (mkMutex 0 (this_thread e) (Some s)) s count'.
Proof.
  intros Hat Ho Hgo. pose proof Hat as (Hm & Hs & Hc).
  assert (Hcl : claimed e mx = mkMutex 0 (this_thread e) (Some s)).
  { unfold claimed, set_recursive, set_owner. cbn [recursive owner sem]. by rewrite Hs. }
  destruct (wait_fails e) eqn:Hw.
  - eexists _, _, count.
    rewrite (run_lock_wait_fails e w m mx Hm s count Hs Hc Ho Hw).
    split; [reflexivity|]. rewrite Hcl.
    by apply (lock_at_put_mutex w m mx s count).
  - destruct Hgo as [|Hpos]; [done|].
    eexists _, _, (N.pred count).
    rewrite (run_lock_takes_token e w m mx Hm s count Hs Hc Ho Hw Hpos).
    split; [reflexivity|]. rewrite Hcl.
    apply (lock_at_put_mutex _ m mx s (N.pred count)); [|done].
    by apply (lock_at_put_semaphore w m mx s count).
Qed.

(** The outermost release, as one call in a sequence. *)
Lemma outermost_unlock (e : env) (w : world) (m s : loc) (count : N) :
  lock_at w m (mkMutex 0 (this_thread e) (Some s)) s count ->
  exists tr w' r,
    calls (SDL_UnlockMutex (Some m)) [e] w = Some (tr, w') /\
    lock_at w' m (mkMutex 0 NoOwner (Some s)) s
      (if post_fails e then count else N.succ count) /\
    List.filter is_semaphore_op tr = [EvPostSemaphore (Some s) r].
Proof.
  intros Hat. pose proof Hat as (Hm & Hs & Hc). cbn [calls].
  rewrite (run_unlock_outermost e w m _ Hm s count Hs Hc eq_refl eq_refl).
  cbv beta iota. change (0 =? 0) with true. cbv beta iota.
  assert (Hrel : lock_at (put_mutex m (mkMutex 0 NoOwner (Some s)) w) m
                   (mkMutex 0 NoOwner (Some s)) s count).
  { by apply (lock_at_put_mutex w m _ s count (mkMutex 0 NoOwner (Some s))) in Hat. }
  unfold released. cbn [set_owner recursive owner sem].
  destruct (post_fails e).
  - eexists _, _, _. split; [reflexivity|]. split; [exact Hrel|]. reflexivity.
  - eexists _, _, _. split; [reflexivity|].
    split; [|reflexivity]. by apply (lock_at_put_semaphore _ m _ s count).
Qed.

(** C5, amended.  Thread T acquires a free lock N times, 1 <= N <= 2^31
    (the counter then stays within [int]).  All N calls return 0.
    Afterwards any k < N releases by T return 0, perform no semaphore
    operation, leave T the owner and the counter at N - 1 - k; N releases
    return 0 and free the lock, with exactly one semaphore operation, the
    post of the N-th release. *)
Theorem recursion_round_trip (T : SDL_ThreadID) (m s : loc) (mx : SDL_Mutex)
    (count : N) (w : world) (e1 : env) (locks : list env) :
  T <> NoOwner ->
  lock_at w m mx s count -> owner mx = NoOwner ->
  by_thread T (e1 :: locks) ->
  wait_fails e1 = true \/ (0 < count)%N ->
  Z.of_nat (length (e1 :: locks)) <= 2 ^ 31 ->
  exists trN wN,
    calls (SDL_LockMutex (Some m)) (e1 :: locks) w = Some (trN, wN) /\
    (forall unlocks,
       by_thread T unlocks -> (length unlocks < length (e1 :: locks))%nat ->
       exists tr wk countk,
         calls (SDL_UnlockMutex (Some m)) unlocks wN = Some (tr, wk) /\
         lock_at wk m
           (mkMutex (Z.of_nat (length locks) - Z.of_nat (length unlocks)) T (Some s))
           s countk /\
         semaphores wk = semaphores wN /\ no_semaphore_op tr = true) /\
    (forall unlocks,
       by_thread T unlocks -> length unlocks = length (e1 :: locks) ->
       exists tr w' count' r,
         calls (SDL_UnlockMutex (Some m)) unlocks wN = Some (tr, w') /\
         lock_at w' m (mkMutex 0 NoOwner (Some s)) s count' /\
         List.filter is_semaphore_op tr = [EvPostSemaphore (Some s) r]).
Proof.
  intros HT Hat Ho Hes Hgo HN. apply Forall_cons in Hes as [He1 Hlocks].
  cbn [length] in HN. change (2 ^ 31) with 2147483648 in HN.
  destruct (first_lock e1 w m s mx count Hat) as (tr1 & w1 & c1 & Hrun1 & Hat1);
    [congruence|exact Hgo|]. rewrite He1 in Hat1.
  destruct (reentrant_locks T m s locks w1 _ c1 Hat1 eq_refl)
    as (tr2 & wN & Hcalls & HatN & _ & _).
  { unfold is_int, INT_MIN, INT_MAX. cbn. lia. }
  { exact Hlocks. }
  unfold set_recursive in HatN. cbn [recursive owner sem] in HatN.
  rewrite Z.add_0_l, wrap_int_id in HatN
    by (unfold is_int, INT_MIN, INT_MAX; lia).
  assert (Hinner : forall unlocks,
    by_thread T unlocks -> (length unlocks <= length locks)%nat ->
    exists tr wk,
      calls (SDL_UnlockMutex (Some m)) unlocks wN = Some (tr, wk) /\
      lock_at wk m
        (mkMutex (Z.of_nat (length locks) - Z.of_nat (length unlocks)) T (Some s))
        s c1 /\
      semaphores wk = semaphores wN /\ no_semaphore_op tr = true).
  { intros unlocks Hun Hlen.
    apply (inner_unlocks T m s unlocks wN _ c1 HatN eq_refl); [|exact Hun].
    unfold INT_MAX. cbn [recursive]. lia. }
  exists (tr1 ++ tr2), wN. split; [|split].
  - cbn [calls]. rewrite Hrun1. cbv beta iota. change (0 =? 0) with true.
    cbv beta iota. by rewrite Hcalls.
  - intros unlocks Hun Hlen. cbn [length] in Hlen.
    destruct (Hinner unlocks Hun) as (tr & wk & ?); [lia|]. by exists tr, wk, c1.
  - intros unlocks Hun Hlen. cbn [length] in Hlen.
    rewrite <- (take_drop (length locks) unlocks) in Hun |- *.
    apply Forall_app in Hun as [Hun1 Hun2].
    assert (Hlen1 : length (take (length locks) unlocks) = length locks).
    { rewrite length_take. lia. }
    destruct (drop (length locks) unlocks) as [|eN [|]] eqn:Hdrop;
      try (apply (f_equal length) in Hdrop; rewrite length_drop in Hdrop;
           cbn [length] in Hdrop; lia).
    apply Forall_cons in Hun2 as [HeN _].
    destruct (Hinner _ Hun1) as (tr & wk & Hcalls1 & Hatk & _ & Htr); [lia|].
    rewrite Hlen1, Z.sub_diag, <- HeN in Hatk.
    destruct (outermost_unlock eN wk m s c1 Hatk)
      as (trN & w' & r & HcallsN & Hat' & HtrN).
    rewrite (calls_app _ _ _ _ _ _ Hcalls1), HcallsN.
    exists (tr ++ trN), w', (if post_fails eN then c1 else N.succ c1), r.
    split; [reflexivity|]. split; [exact Hat'|].
    rewrite List.filter_app, (no_semaphore_op_filter tr Htr). exact HtrN.
Qed.

Lemma recursion_round_trip_witness :
  exists trN wN,
    calls (SDL_LockMutex (Some 1%positive)) [thread 1; thread 1] free_lock =
      Some (trN, wN) /\
    (forall unlocks,
       by_thread 1 unlocks -> (length unlocks < 2)%nat ->
       exists tr wk countk,
         calls (SDL_UnlockMutex (Some 1%positive)) unlocks wN = Some (tr, wk) /\
         lock_at wk 1%positive
           (mkMutex (1 - Z.of_nat (length unlocks)) 1 (Some 1%positive))
           1%positive countk /\
         semaphores wk = semaphores wN /\ no_semaphore_op tr = true) /\
    (forall unlocks,
       by_thread 1 unlocks -> length unlocks = 2%nat ->
       exists tr w' count' r,
         calls (SDL_UnlockMutex (Some 1%positive)) unlocks wN = Some (tr, w') /\
         lock_at w' 1%positive (mkMutex 0 NoOwner (Some 1%positive)) 1%positive count' /\
         List.filter is_semaphore_op tr = [EvPostSemaphore (Some 1%positive) r]).
Proof.
  apply (recursion_round_trip 1 1%positive 1%positive
           (mkMutex 0 NoOwner (Some 1%positive)) 1%N free_lock (thread 1) [thread 1]).
  - discriminate.
  - apply lock_world_at.
  - reflexivity.
  - repeat constructor.
  - right. reflexivity.
  - simpl. lia.
Defined.

(** Once the counter has wrapped around to 0, a single release frees the
    lock, however many acquisitions are outstanding. *)
Lemma wrapped_counter_frees_early (n : nat) :
  wrap_int (Z.of_nat n) = 0 ->
  exists trN wN tr1 w1,
    calls (SDL_LockMutex (Some 1%positive)) (replicate (S n) (thread 1)) free_lock =
      Some (trN, wN) /\
    calls (SDL_UnlockMutex (Some 1%positive)) [thread 1] wN = Some (tr1, w1) /\
    lock_at w1 1%positive (mkMutex 0 NoOwner (Some 1%positive)) 1%positive 1.
Proof.
  intros Hwrap.
  destruct (lock_world_at NoOwner 0 1) as (Hm & Hs & Hc).
  pose proof (run_lock_takes_token (thread 1) _ _ _ Hm _ _ Hs Hc) as Hrun1.
  specialize (Hrun1 ltac:(discriminate) eq_refl eq_refl).
  set (w1 := put_mutex 1%positive (claimed (thread 1) (mkMutex 0 NoOwner (Some 1%positive)))
               (put_semaphore 1%positive (N.pred 1) (lock_world NoOwner 0 1))) in Hrun1.
  assert (Hat1 : lock_at w1 1%positive (mkMutex 0 1 (Some 1%positive)) 1%positive 0).
  { repeat split; apply lookup_insert_eq. }
  destruct (reentrant_locks 1 1%positive 1%positive (replicate n (thread 1))
              w1 _ 0%N Hat1 eq_refl)
    as (tr2 & wN & Hcalls & HatN & _ & _).
  { unfold is_int, INT_MIN, INT_MAX. cbn. lia. }
  { by apply Forall_replicate. }
  unfold set_recursive in HatN. cbn [recursive owner sem] in HatN.
  rewrite length_replicate, Z.add_0_l, Hwrap in HatN.
  destruct (outermost_unlock (thread 1) wN 1%positive 1%positive 0 HatN)
    as (trU & w' & r & HcallsU & Hat' & _).
  eexists _, wN, trU, w'. split; [|split; done].
  cbn [replicate calls]. change free_lock with (lock_world NoOwner 0 1).
  rewrite Hrun1. cbv beta iota.
  change (0 =? 0) with true. cbv beta iota. by rewrite Hcalls.
Qed.

(** C5 as stated fails for N = 2^32 + 1: after that many acquisitions the
    counter is back at 0 and the first release already frees the lock. *)
Lemma recursion_round_trip_overflow :
  exists trN wN tr1 w1 count,
    calls (SDL_LockMutex (Some 1%positive))
      (replicate (S (Z.to_nat 4294967296)) (thread 1)) free_lock = Some (trN, wN) /\
    calls (SDL_UnlockMutex (Some 1%positive)) [thread 1] wN = Some (tr1, w1) /\
    lock_at w1 1%positive (mkMutex 0 NoOwner (Some 1%positive)) 1%positive count.
Proof.
  destruct (wrapped_counter_frees_early (Z.to_nat 4294967296))
    as (trN & wN & tr1 & w1 & H1 & H2 & H3).
  { rewrite Z2Nat.id by lia. reflexivity. }
  exists trN, wN, tr1, w1, 1%N. split; [exact H1|]. split; [exact H2|exact H3].
Qed.

(** * Order of the operations inside one call *)

(** [precedes a b tr]: in the trace [tr], every [b]-event has an [a]-event
    strictly before it, and no [a]-event at or after it. *)
Definition precedes (a b : event -> bool) (tr : list event) : Prop :=
  forall (j : nat) (y : event), tr !! j = Some y -> b y = true ->
    (exists i x, (i < j)%nat /\ tr !! i = Some x /\ a x = true) /\
    (forall i x, tr !! i = Some x -> a x = true -> (i < j)%nat).

(** The same, computed in one pass; [seen] tells whether an [a]-event has
    been met. *)
Fixpoint precedes_b (a b : event -> bool) (seen : bool) (tr : list event) : bool :=
  match tr with
  | [] => true
  | x :: tr' =>
      if b x then
        seen && forallb (fun y => negb (a y)) (x :: tr') && precedes_b a b seen tr'
      else precedes_b a b (seen || a x) tr'
  end.

Definition is_token_taken (ev : event) : bool :=
  match ev with EvWaitSemaphore _ r => r =? 0 | _ => false end.
Definition is_clear_owner (ev : event) : bool :=
  match ev with EvStoreOwner _ v => v =? NoOwner | _ => false end.

Lemma forallb_negb_lookup (a : event -> bool) (tr : list event) (i : nat) (x : event) :
  forallb (fun y => negb (a y)) tr = true -> tr !! i = Some x -> a x = true -> False.
Proof.
  intros Hall Hi Ha. rewrite forallb_forall in Hall.
  assert (Hin : In x tr) by (apply list_elem_of_In; eapply list_elem_of_lookup_2, Hi).
  specialize (Hall x Hin). rewrite Ha in Hall. discriminate.
Qed.

Lemma precedes_b_sound (a b : event -> bool) (tr : list event) :
  forall seen, precedes_b a b seen tr = true ->
  forall j y, tr !! j = Some y -> b y = true ->
    (seen = true \/ exists i x, (i < j)%nat /\ tr !! i = Some x /\ a x = true) /\
    (forall i x, tr !! i = Some x -> a x = true -> (i < j)%nat).
Proof.
  induction tr as [|x0 tr IH]; intros seen Hchk j y Hj Hb; [done|].
  cbn [precedes_b] in Hchk. destruct (b x0) eqn:Hb0.
  - apply andb_prop in Hchk as [Hchk _]. apply andb_prop in Hchk as [-> Hnone].
    split; [by left|]. intros i x Hi Ha.
    destruct (forallb_negb_lookup a (x0 :: tr) i x Hnone Hi Ha).
  - destruct j as [|j]; [cbn in Hj; congruence|]. cbn in Hj.
    destruct (IH _ Hchk j y Hj Hb) as [Hsome Hlate]. split.
    + destruct seen; [by left|]. cbn [orb] in Hsome. right.
      destruct Hsome as [Ha0 | (i & x & Hlt & Hi & Ha)].
      * exists 0%nat, x0. repeat split; [lia|done..].
      * exists (S i), x. repeat split; [lia|done..].
    + intros [|i] x Hi Ha; [lia|]. cbn in Hi.
      specialize (Hlate i x Hi Ha). lia.
Qed.

Lemma precedes_b_precedes (a b : event -> bool) (tr : list event) :
  precedes_b a b false tr = true -> precedes a b tr.
Proof.
  intros Hchk j y Hj Hb.
  destruct (precedes_b_sound a b tr false Hchk j y Hj Hb) as [[|] ?]; done.
Qed.

Ltac all_traces :=
  cbn [run and_then fst snd do_get_thread_id];
  unfold do_load, do_store, do_wait_semaphore, do_post_semaphore;
  repeat (case_match; cbn [run and_then fst snd mutexes semaphores
                           with_mutexes with_semaphores];
          unfold do_load, do_store, do_wait_semaphore, do_post_semaphore);
  unfold emit; cbn [fst snd].

(** C6 fails on the code.  Thread 2 calls SDL_LockMutex on the lock held
    by thread 1 (no token in the semaphore) and SDL_WaitSemaphore reports a
    failure: the result of the wait is discarded, [owner] is set to 2 and
    0 is returned although no token was taken, neither before the store nor
    after it; the semaphore still has no token and thread 1 has released
    nothing. *)
Theorem SDL_LockMutex_sets_owner_without_token :
  run (thread_wait_failing 2) (SDL_LockMutex (Some 1%positive)) (held_by 1 0) =
    ([EvGetCurrentThreadID 2; EvLoadOwner 1%positive 1;
      EvLoadSem 1%positive (Some 1%positive);
      EvWaitSemaphore (Some 1%positive) SDL_ERROR;
      EvStoreOwner 1%positive 2; EvStoreRecursive 1%positive 0],
     Done 0 (put_mutex 1%positive (mkMutex 0 2 (Some 1%positive)) (held_by 1 0))) /\
  existsb is_token_taken
    (run (thread_wait_failing 2) (SDL_LockMutex (Some 1%positive)) (held_by 1 0)).1
    = false /\
  ~ precedes is_token_taken is_store_owner
      (run (thread_wait_failing 2) (SDL_LockMutex (Some 1%positive)) (held_by 1 0)).1.
Proof.
  assert (Hrun :
    run (thread_wait_failing 2) (SDL_LockMutex (Some 1%positive)) (held_by 1 0) =
    ([EvGetCurrentThreadID 2; EvLoadOwner 1%positive 1;
      EvLoadSem 1%positive (Some 1%positive);
      EvWaitSemaphore (Some 1%positive) SDL_ERROR;
      EvStoreOwner 1%positive 2; EvStoreRecursive 1%positive 0],
     Done 0 (put_mutex 1%positive (mkMutex 0 2 (Some 1%positive)) (held_by 1 0)))).
  { destruct (lock_world_at 1 0 0) as (Hm & Hs & Hc).
    apply (run_lock_wait_fails (thread_wait_failing 2) _ _ _ Hm _ _ Hs Hc);
      [discriminate|reflexivity]. }
  split; [exact Hrun|]. rewrite Hrun. cbn [fst]. split; [reflexivity|].
  intros Hord.
  destruct (Hord 4%nat (EvStoreOwner 1%positive 2) eq_refl eq_refl)
    as [(i & x & Hlt & Hi & Hx) _].
  do 4 (destruct i as [|i]; [cbn in Hi; injection Hi as <-; discriminate|]). lia.
Qed.

(** X19. In an acquisition the token is taken before [owner] is set, and
    never after it: in every run of SDL_TryLockMutex, and in every run of
    SDL_LockMutex whose wait does not report a failure, whatever the state
    of memory.  On a well-formed lock owned by someone else, with a token
    available, both events do occur, in that order. *)
Theorem token_taken_before_owner_set (o : lock_op) (e : env) (w : world) (m : loc) :
  o <> Release -> (o = Acquire -> wait_fails e = false) ->
  precedes is_token_taken is_store_owner (run e (call o (Some m)) w).1 /\
  (forall s mx count,
     lock_at w m mx s count -> owner mx <> this_thread e ->
     wait_fails e = false -> (0 < count)%N ->
     (run e (call o (Some m)) w).1 =
       [EvGetCurrentThreadID (this_thread e); EvLoadOwner m (owner mx);
        EvLoadSem m (Some s); EvWaitSemaphore (Some s) 0;
        EvStoreOwner m (this_thread e); EvStoreRecursive m 0]).
Proof.
  intros Ho Hacq. split.
  - apply precedes_b_precedes. destruct o; [specialize (Hacq eq_refl)| |done];
      cbn [call]; unfold SDL_LockMutex, SDL_TryLockMutex; all_traces;
      try reflexivity; first [congruence | done].
  - intros s mx count (Hm & Hs & Hc) Hne Hw Hpos. destruct o; [| |done]; cbn [call].
    + by rewrite (run_lock_takes_token e w m mx Hm s count Hs Hc Hne Hw Hpos).
    + by rewrite (run_trylock_takes_token e w m mx Hm s count Hs Hc Hne Hw Hpos).
Qed.

Lemma token_taken_before_owner_set_witness :
  precedes is_token_taken is_store_owner
    (run (thread 2) (SDL_LockMutex (Some 1%positive)) free_lock).1 /\
  (run (thread 2) (SDL_LockMutex (Some 1%positive)) free_lock).1 =
    [EvGetCurrentThreadID 2; EvLoadOwner 1%positive NoOwner;
     EvLoadSem 1%positive (Some 1%positive); EvWaitSemaphore (Some 1%positive) 0;
     EvStoreOwner 1%positive 2; EvStoreRecursive 1%positive 0].
Proof.
  destruct (token_taken_before_owner_set Acquire (thread 2) free_lock 1%positive)
    as [Hord Hrun]; [discriminate|reflexivity|].
  split; [exact Hord|].
  apply (Hrun 1%positive (mkMutex 0 NoOwner (Some 1%positive)) 1%N
           (lock_world_at NoOwner 0 1)); [discriminate|reflexivity|reflexivity].
Defined.

(** X20. In a release [owner] is cleared before the token is posted, and
    never after it, whatever the state of memory.  In the outermost release of a
    well-formed lock by its owner both events do occur, in that order. *)
Theorem owner_cleared_before_post (e : env) (w : world) (m s : loc)
    (mx : SDL_Mutex) (count : N) :
  lock_at w m mx s count ->
  precedes is_clear_owner is_post (run e (SDL_UnlockMutex (Some m)) w).1 /\
  (this_thread e = owner mx -> recursive mx = 0 ->
     (run e (SDL_UnlockMutex (Some m)) w).1 =
       [EvGetCurrentThreadID (this_thread e); EvLoadOwner m (this_thread e);
        EvLoadRecursive m 0; EvStoreOwner m NoOwner; EvLoadSem m (Some s);
        EvPostSemaphore (Some s) (if post_fails e then SDL_ERROR else 0)]).
Proof.
  intros (Hm & Hs & Hc). split.
  - apply precedes_b_precedes. unfold SDL_UnlockMutex. all_traces; reflexivity.
  - intros Ho Hr. by rewrite (run_unlock_outermost e w m mx Hm s count Hs Hc Ho Hr).
Qed.

Lemma owner_cleared_before_post_witness :
  precedes is_clear_owner is_post
    (run (thread 1) (SDL_UnlockMutex (Some 1%positive)) (held_by 1 0)).1 /\
  (run (thread 1) (SDL_UnlockMutex (Some 1%positive)) (held_by 1 0)).1 =
    [EvGetCurrentThreadID 1; EvLoadOwner 1%positive 1;
     EvLoadRecursive 1%positive 0; EvStoreOwner 1%positive NoOwner;
     EvLoadSem 1%positive (Some 1%positive); EvPostSemaphore (Some 1%positive) 0].
Proof.
  destruct (owner_cleared_before_post (thread 1) (held_by 1 0) 1%positive 1%positive
              (mkMutex 0 1 (Some 1%positive)) 0%N (lock_world_at 1 0 0))
    as [Hord Hrun].
  split; [exact Hord|]. apply Hrun; reflexivity.
Defined.

(** * Several threads on one lock *)

(** What a thread is doing: nothing, or it is inside a call of a lock
    operation with the program [p] still to execute. *)
Inductive activity : Type :=
| Idle
| Calling (o : lock_op) (p : prog Z).

(** The shared memory, the activity of every thread, and for every thread
    the number of acquisitions that have returned 0 to it and that it has
    not yet given up by calling the release: the thread is in its critical
    section, it considers itself the owner, while that number is
    positive. *)
Record system : Type := mkSystem {
  shared : world;
  threads : gmap Z activity;
  holds : gmap Z nat
}.

Definition activity_of (σ : system) (T : SDL_ThreadID) : activity :=
  default Idle (threads σ !! T).
Definition holds_of (σ : system) (T : SDL_ThreadID) : nat :=
  default 0%nat (holds σ !! T).

Definition considers_itself_owner (σ : system) (T : SDL_ThreadID) : Prop :=
  (0 < holds_of σ T)%nat.

Inductive label : Type :=
| LCall (T : SDL_ThreadID) (o : lock_op)
| LEffect (T : SDL_ThreadID) (o : lock_op) (ev : event)
| LReturn (T : SDL_ThreadID) (o : lock_op) (r : Z).

Definition holds_on_call (o : lock_op) (T : SDL_ThreadID) (σ : system) : gmap Z nat :=
  match o with
  | Release => <[T := Nat.pred (holds_of σ T)]> (holds σ)
  | Acquire | TryAcquire => holds σ
  end.

Definition holds_on_return (o : lock_op) (r : Z) (T : SDL_ThreadID) (σ : system)
    : gmap Z nat :=
  match o with
  | Release => holds σ
  | Acquire | TryAcquire =>
      if r =? 0 then <[T := S (holds_of σ T)]> (holds σ) else holds σ
  end.

(** One step of the system: a thread enters a call on the mutex [m],
    performs the next effect of its call atomically, or returns. *)
Inductive step (m : loc) (σ : system) : label -> system -> Prop :=
| step_call (T : SDL_ThreadID) (o : lock_op) :
    T <> NoOwner ->
    activity_of σ T = Idle ->
    step m σ (LCall T o)
      {| shared := shared σ;
         threads := <[T := Calling o (call o (Some m))]> (threads σ);
         holds := holds_on_call o T σ |}
| step_effect (T : SDL_ThreadID) (o : lock_op) (p : prog Z) (e : env)
    (ev : event) (w' : world) (p' : prog Z) :
    T <> NoOwner ->
    activity_of σ T = Calling o p ->
    this_thread e = T ->
    exec e (shared σ) p = Step ev w' p' ->
    step m σ (LEffect T o ev)
      {| shared := w';
         threads := <[T := Calling o p']> (threads σ);
         holds := holds σ |}
| step_return (T : SDL_ThreadID) (o : lock_op) (r : Z) :
    T <> NoOwner ->
    activity_of σ T = Calling o (Ret r) ->
    step m σ (LReturn T o r)
      {| shared := shared σ;
         threads := <[T := Idle]> (threads σ);
         holds := holds_on_return o r T σ |}.

(** Executions all of whose steps satisfy [ok]. *)
Inductive execution_where (ok : system -> label -> Prop) (m : loc)
    : system -> list label -> system -> Prop :=
| execution_nil (σ : system) : execution_where ok m σ [] σ
| execution_cons (σ σ' σ'' : system) (l : label) (ls : list label) :
    step m σ l σ' -> ok σ l -> execution_where ok m σ' ls σ'' ->
    execution_where ok m σ (l :: ls) σ''.

(** Any execution. *)
Definition execution : loc -> system -> list label -> system -> Prop :=
  execution_where (fun _ _ => True).

(** No SDL_WaitSemaphore called by SDL_LockMutex returns a failure. *)
Definition wait_succeeds (l : label) : Prop :=
  match l with
  | LEffect _ Acquire (EvWaitSemaphore _ r) => r = 0
  | _ => True
  end.

(** No thread enters an acquisition while it already holds 2^31 of them
    (the next one would overflow [recursive]). *)
Definition within_int (σ : system) (l : label) : Prop :=
  match l with
  | LCall T Acquire | LCall T TryAcquire => Z.of_nat (holds_of σ T) < 2 ^ 31
  | _ => True
  end.

Definition benign (σ : system) (l : label) : Prop :=
  wait_succeeds l /\ within_int σ l.

(** The executions with benign steps only. *)
Definition safe_execution : loc -> system -> list label -> system -> Prop :=
  execution_where benign.

(** All threads idle, nobody in a critical section. *)
Definition initial (w : world) : system :=
  {| shared := w; threads := ∅; holds := ∅ |}.

Lemma execution_weaken (ok ok' : system -> label -> Prop) m σ ls σ' :
  (forall σ0 l, ok σ0 l -> ok' σ0 l) ->
  execution_where ok m σ ls σ' -> execution_where ok' m σ ls σ'.
Proof. intros Hok. induction 1; econstructor; eauto. Qed.

Lemma execution_app ok m σ1 ls1 σ2 ls2 σ3 :
  execution_where ok m σ1 ls1 σ2 -> execution_where ok m σ2 ls2 σ3 ->
  execution_where ok m σ1 (ls1 ++ ls2) σ3.
Proof.
  induction 1 as [|? ? ? ? ? Hstep Hok _ IH]; [done|].
  intros H23. cbn [app]. eapply execution_cons; [exact Hstep|exact Hok|]. by apply IH.
Qed.

Lemma activity_of_insert σ w T a h :
  activity_of {| shared := w; threads := <[T := a]> (threads σ); holds := h |} T = a.
Proof. unfold activity_of. cbn. by rewrite lookup_insert_eq. Qed.

Section RunAlone.
Variables (ok : system -> label -> Prop) (m : loc) (T : SDL_ThreadID) (o : lock_op).
Variable e : env.

(** Every effect that can happen on the platform [e] is acceptable. *)
Hypothesis effects_ok :
  forall (σ : system) (w : world) (p : prog Z) ev w1 p1,
    exec e w p = Step ev w1 p1 -> ok σ (LEffect T o ev).

Lemma effect_then_steps (σ : system) (p p' : prog Z) (ev : event) (w1 : world)
    (tr : list event) (r : Z) (w' : world) :
  T <> NoOwner -> this_thread e = T ->
  activity_of σ T = Calling o p ->
  exec e (shared σ) p = Step ev w1 p' ->
  (forall σ1, activity_of σ1 T = Calling o p' ->
     run e p' (shared σ1) = (tr, Done r w') ->
     execution_where ok m σ1 (map (LEffect T o) tr)
       {| shared := w'; threads := <[T := Calling o (Ret r)]> (threads σ1);
          holds := holds σ1 |}) ->
  run e p' w1 = (tr, Done r w') ->
  execution_where ok m σ (map (LEffect T o) (ev :: tr))
    {| shared := w'; threads := <[T := Calling o (Ret r)]> (threads σ);
       holds := holds σ |}.
Proof.
  intros HT He Hact Hexec IH Hrun. cbn [map].
  eapply execution_cons;
    [by eapply (step_effect m σ T o p e)|by eapply effects_ok|].
  specialize (IH {| shared := w1; threads := <[T := Calling o p']> (threads σ);
                    holds := holds σ |}).
  cbn [shared threads holds] in IH. rewrite insert_insert_eq in IH.
  apply IH; [apply activity_of_insert|exact Hrun].
Qed.

(** A call run alone is one of the interleavings: the effects of [run] can
    be taken one after the other as steps of the system. *)
Lemma run_steps (p : prog Z) :
  forall (σ : system) (tr : list event) (r : Z) (w' : world),
  T <> NoOwner -> this_thread e = T ->
  activity_of σ T = Calling o p ->
  run e p (shared σ) = (tr, Done r w') ->
  execution_where ok m σ (map (LEffect T o) tr)
    {| shared := w';
       threads := <[T := Calling o (Ret r)]> (threads σ);
       holds := holds σ |}.
Proof.
  induction p; intros σ tr r w' HT He Hact Hrun;
    rewrite run_exec in Hrun.
  1: { cbn [exec] in Hrun. injection Hrun as <- <- <-. cbn [map].
       replace (<[T:=Calling o (Ret a)]> (threads σ)) with (threads σ).
       - destruct σ. apply execution_nil.
       - symmetry. apply insert_id. unfold activity_of in Hact.
         destruct (threads σ !! T) as [a'|]; cbn in Hact; congruence. }
  all: match type of Hrun with
       | context [exec _ ?w0 ?q] =>
           destruct (exec e w0 q) as [|ev w1 p'| |] eqn:Hexec
       end; try discriminate;
       pose proof Hexec as Hk; cbn [exec] in Hk;
       match type of Hk with
       | next ?d _ _ = _ => destruct d as [x w2| |]
       end; cbn [next] in Hk; try discriminate; injection Hk as <- <- <-;
       destruct (run e _ w2) as [tr1 out] eqn:Hrest; unfold emit in Hrun;
       cbn [fst snd] in Hrun; injection Hrun as <- ->;
       eapply effect_then_steps; eauto.
Qed.

(** A whole call, from entry to return, with no other thread in between. *)
Definition after_call (r : Z) (w' : world) (σ : system) : system :=
  {| shared := w';
     threads := <[T := Idle]> (threads σ);
     holds :=
       holds_on_return o r T
         {| shared := w';
            threads := <[T := Calling o (Ret r)]> (threads σ);
            holds := holds_on_call o T σ |} |}.

Lemma call_steps (σ : system) (tr : list event) (r : Z) (w' : world) :
  T <> NoOwner -> this_thread e = T ->
  activity_of σ T = Idle ->
  ok σ (LCall T o) ->
  (forall σ', ok σ' (LReturn T o r)) ->
  run e (call o (Some m)) (shared σ) = (tr, Done r w') ->
  execution_where ok m σ (LCall T o :: map (LEffect T o) tr ++ [LReturn T o r])
    (after_call r w' σ).
Proof.
  intros HT He Hidle Hcall Hret Hrun.
  eapply execution_cons; [by apply step_call|exact Hcall|].
  eapply execution_app.
  - eapply run_steps; [done..|apply activity_of_insert|exact Hrun].
  - cbn [threads holds shared]. rewrite insert_insert_eq.
    eapply execution_cons; [|apply Hret|apply execution_nil].
    set (σ2 := {| shared := w'; threads := <[T := Calling o (Ret r)]> (threads σ);
                  holds := holds_on_call o T σ |}).
    replace (after_call r w' σ)
      with {| shared := shared σ2; threads := <[T := Idle]> (threads σ2);
              holds := holds_on_return o r T σ2 |}
      by (unfold after_call, σ2; cbn [shared threads]; by rewrite insert_insert_eq).
    apply (step_return m σ2 T o r HT).
    apply activity_of_insert.
Qed.
End RunAlone.

(** On a platform whose wait does not fail, every effect is benign. *)
Lemma effects_wait_succeeds (T : SDL_ThreadID) (o : lock_op) (e : env) :
  wait_fails e = false ->
  forall (w : world) (p : prog Z) ev w1 p1,
    exec e w p = Step ev w1 p1 -> wait_succeeds (LEffect T o ev).
Proof.
  intros Hw w p ev w1 p1 Hexec.
  destruct o; [|done..].
  destruct p; cbn [exec] in Hexec;
    try (match type of Hexec with
         | next ?d _ _ = _ => destruct d eqn:Hd
         end; cbn [next] in Hexec; try discriminate;
         injection Hexec as <- <- <-; try exact I).
  - discriminate.
  - cbn [wait_succeeds]. unfold do_wait_semaphore in Hd. rewrite Hw in Hd.
    repeat case_match; congruence.
Qed.

Lemma effects_benign (T : SDL_ThreadID) (o : lock_op) (e : env) :
  wait_fails e = false ->
  forall (σ : system) (w : world) (p : prog Z) ev w1 p1,
    exec e w p = Step ev w1 p1 -> benign σ (LEffect T o ev).
Proof.
  intros Hw σ w p ev w1 p1 Hexec. split; [|done].
  by apply (effects_wait_succeeds T o e Hw w p ev w1 p1).
Qed.

(** Thread 1 acquires the free lock; thread 2 then calls SDL_LockMutex and
    its SDL_WaitSemaphore reports a failure. *)
Definition one_holds : system :=
  after_call 1 Acquire 0
    (put_mutex 1%positive (mkMutex 0 1 (Some 1%positive))
       (put_semaphore 1%positive 0 free_lock))
    (initial free_lock).


(** The labels of a call of SDL_LockMutex by thread [T] on the mutex at
    address 1 that finds another owner there and returns. *)
Definition lock_labels (T ow : SDL_ThreadID) (wait_result : Z) : list label :=
  LCall T Acquire
  :: map (LEffect T Acquire)
       [EvGetCurrentThreadID T; EvLoadOwner 1%positive ow;
        EvLoadSem 1%positive (Some 1%positive);
        EvWaitSemaphore (Some 1%positive) wait_result;
        EvStoreOwner 1%positive T; EvStoreRecursive 1%positive 0]
  ++ [LReturn T Acquire 0].

Lemma one_holds_reached :
  safe_execution 1%positive (initial free_lock) (lock_labels 1 NoOwner 0) one_holds.
Proof.
  destruct (lock_world_at NoOwner 0 1) as (Hm & Hs & Hc).
  apply (call_steps benign 1%positive 1 Acquire (thread 1));
    [by apply effects_benign | done | done | done | done | done |].
  by apply (run_lock_takes_token (thread 1) _ _ _ Hm _ _ Hs Hc).
Qed.



(** * The invariant I2 *)

(** I2: a positive recursion counter implies an owner. *)
Definition I2 (mx : SDL_Mutex) : Prop := 0 < recursive mx -> owner mx <> NoOwner.

(** The labels of an outermost SDL_UnlockMutex by the owner [T] of the
    mutex at address 1. *)
Definition unlock_labels (T : SDL_ThreadID) : list label :=
  LCall T Release
  :: map (LEffect T Release)
       [EvGetCurrentThreadID T; EvLoadOwner 1%positive T;
        EvLoadRecursive 1%positive 0; EvStoreOwner 1%positive NoOwner;
        EvLoadSem 1%positive (Some 1%positive);
        EvPostSemaphore (Some 1%positive) 0]
  ++ [LReturn T Release 0].

(** Thread 1 acquires the free lock and calls SDL_LockMutex again; it has
    read [owner] and found itself there (line 84) when thread 2 calls
    SDL_LockMutex, whose wait reports a failure (lines 91-93), and then
    SDL_UnlockMutex (lines 155-156). *)
Definition interrupting_labels : list label :=
  lock_labels 1 NoOwner 0
  ++ [LCall 1 Acquire; LEffect 1 Acquire (EvGetCurrentThreadID 1);
      LEffect 1 Acquire (EvLoadOwner 1%positive 1)]
  ++ lock_labels 2 1 SDL_ERROR
  ++ unlock_labels 2.

(** The state then: the memory is that of the free lock, and thread 1 is
    inside its call, about to increment the counter (line 85). *)
Definition interrupted : system :=
  {| shared := free_lock;
     threads :=
       <[1 := Calling Acquire
                (load_recursive 1%positive
                   (fun r => store_recursive 1%positive (wrap_int (r + 1)) (Ret 0)))]>
         (<[2 := Idle]> ∅);
     holds := <[1 := 1%nat]> (<[2 := 0%nat]> ∅) |}.

(** Thread 1 completes its call. *)
Definition resuming_labels : list label :=
  [LEffect 1 Acquire (EvLoadRecursive 1%positive 0);
   LEffect 1 Acquire (EvStoreRecursive 1%positive 1);
   LReturn 1 Acquire 0].

(** The state at the end: every call has returned, nobody is recorded as
    owner, the token is in the semaphore, and the counter is 1. *)
Definition all_returned : system :=
  {| shared := lock_world NoOwner 1 1;
     threads := <[1 := Idle]> (<[2 := Idle]> ∅);
     holds := <[1 := 2%nat]> (<[2 := 0%nat]> ∅) |}.

Lemma interrupted_reached :
  execution 1%positive (initial free_lock) interrupting_labels interrupted.
Proof.
  assert (Hex : exists σ,
    execution 1%positive (initial free_lock) interrupting_labels σ /\
    σ = interrupted).
  { eexists. split.
    - unfold interrupting_labels.
      eapply execution_app.
      { eapply execution_weaken; [|exact one_holds_reached]. done. }
      eapply execution_cons;
        [apply (step_call _ _ 1 Acquire); [done|reflexivity] | exact I |].
      eapply execution_cons;
        [eapply (step_effect _ _ 1 Acquire _ (thread 1));
           [done|reflexivity|reflexivity|reflexivity] | exact I |].
      eapply execution_cons;
        [eapply (step_effect _ _ 1 Acquire _ (thread 1));
           [done|reflexivity|reflexivity|reflexivity] | exact I |].
      eapply execution_app.
      { apply (call_steps _ 1%positive 2 Acquire (thread_wait_failing 2));
          [done|done|done|reflexivity|done|done|reflexivity]. }
      rewrite <- (app_nil_r (unlock_labels 2)).
      eapply execution_app; [|apply execution_nil].
      apply (call_steps _ 1%positive 2 Release (thread 2));
        [done|done|done|reflexivity|done|done|reflexivity].
    - reflexivity. }
  destruct Hex as (σ & Hex & <-). exact Hex.
Qed.

Lemma all_returned_reached :
  execution 1%positive interrupted resuming_labels all_returned.
Proof.
  assert (Hex : exists σ,
    execution 1%positive interrupted resuming_labels σ /\ σ = all_returned).
  { eexists. split.
    - eapply execution_cons;
        [eapply (step_effect _ _ 1 Acquire _ (thread 1));
           [done|reflexivity|reflexivity|reflexivity] | exact I |].
      eapply execution_cons;
        [eapply (step_effect _ _ 1 Acquire _ (thread 1));
           [done|reflexivity|reflexivity|reflexivity] | exact I |].
      eapply execution_cons;
        [eapply (step_return _ _ 1 Acquire 0); [done|reflexivity] | exact I |].
      apply execution_nil.
    - reflexivity. }
  destruct Hex as (σ & Hex & <-). exact Hex.
Qed.

(** C9 fails on the code.  From the lock as SDL_CreateMutex leaves it, the
    calls above, one of them an SDL_LockMutex whose wait reports a failure,
    lead to a state whose memory is that of the free lock, where I2 holds,
    with thread 1 inside SDL_LockMutex on the re-entrant path.  Thread 1
    completes its call: every call has then returned, and the mutex has
    [recursive] = 1 and [owner] = 0.  This acquisition has not preserved
    I2. *)
Theorem I2_broken_by_failed_wait :
  execution 1%positive (initial free_lock) interrupting_labels interrupted /\
  (mutexes (shared interrupted) !! 1%positive =
     Some (mkMutex 0 NoOwner (Some 1%positive)) /\
   I2 (mkMutex 0 NoOwner (Some 1%positive))) /\
  execution 1%positive interrupted resuming_labels all_returned /\
  (forall T, activity_of all_returned T = Idle) /\
  (mutexes (shared all_returned) !! 1%positive =
     Some (mkMutex 1 NoOwner (Some 1%positive)) /\
   ~ I2 (mkMutex 1 NoOwner (Some 1%positive))).
Proof.
  split; [exact interrupted_reached|]. split.
  { split; [reflexivity|]. unfold I2. cbn. lia. }
  split; [exact all_returned_reached|]. split; [|split].
  - intros T. unfold activity_of.
    destruct (threads all_returned !! T) as [a|] eqn:Ha; [|done].
    cbn in Ha. apply lookup_insert_Some in Ha as [[_ <-]|[_ Ha]]; [done|].
    apply lookup_insert_Some in Ha as [[_ <-]|[_ Ha]]; [done|].
    by rewrite lookup_empty in Ha.
  - reflexivity.
  - unfold I2. cbn. intros HI. by apply HI.
Qed.

(** * Mutual exclusion when no wait of SDL_LockMutex fails *)

(** The thread holds the semaphore token although [owner] does not say so:
    it has taken the token and not yet stored [owner], or it has cleared
    [owner] and not yet posted. *)
Definition token_in_hand (a : activity) : bool :=
  match a with
  | Calling Acquire (store_owner _ _ _) | Calling TryAcquire (store_owner _ _ _) => true
  | Calling Release (load_sem _ _) | Calling Release (SDL_PostSemaphore _ _) => true
  | _ => false
  end.

Section Safety.
Variables (m s : loc).

(** The programs that remain to be executed at each point of the calls. *)
Definition lock_reentrant : prog Z :=
  load_recursive m (fun r => store_recursive m (wrap_int (r + 1)) (Ret 0)).
Definition claim (T : SDL_ThreadID) (retval : Z) : prog Z :=
  store_owner m T (store_recursive m 0 (Ret retval)).
Definition after_wait (o : lock_op) (T : SDL_ThreadID) : Z -> prog Z :=
  match o with
  | TryAcquire => fun retval => if retval =? 0 then claim T retval else Ret retval
  | _ => fun _ => claim T 0
  end.
Definition contended (o : lock_op) (T : SDL_ThreadID) : prog Z :=
  load_sem m (fun s' => SDL_WaitSemaphore s' (after_wait o T)).
Definition after_tid (o : lock_op) (T : SDL_ThreadID) : prog Z :=
  load_owner m (fun ow => if ow =? T then lock_reentrant else contended o T).

Definition unlock_decrement : prog Z :=
  load_recursive m (fun r' => store_recursive m (wrap_int (r' - 1)) (Ret 0)).
Definition unlock_post : prog Z :=
  load_sem m (fun s' => SDL_PostSemaphore s' (fun _ => Ret 0)).
Definition unlock_clear : prog Z := store_owner m 0 unlock_post.
Definition unlock_owned : prog Z :=
  load_recursive m (fun r => if negb (r =? 0) then unlock_decrement else unlock_clear).
Definition unlock_error : prog Z :=
  SDL_SetError "mutex not owned by this thread" (fun e => Ret e).
Definition unlock_after_tid (T : SDL_ThreadID) : prog Z :=
  load_owner m (fun ow => if negb (T =? ow) then unlock_error else unlock_owned).

(** What holds of thread T, of its count [h] of held acquisitions and of
    the mutex object [mx] at each point. *)
Definition idle_ok (T : SDL_ThreadID) (mx : SDL_Mutex) (h : nat) : Prop :=
  (owner mx = T /\ Z.of_nat h = recursive mx + 1 /\ 0 <= recursive mx) \/
  (owner mx <> T /\ h = 0%nat).
Definition release_ok (T : SDL_ThreadID) (mx : SDL_Mutex) (h : nat) : Prop :=
  (owner mx = T /\ Z.of_nat h = recursive mx) \/ (owner mx <> T /\ h = 0%nat).
Definition acquired_ok (T : SDL_ThreadID) (mx : SDL_Mutex) (h : nat) (r : Z) : Prop :=
  (r = 0 /\ owner mx = T /\ Z.of_nat h = recursive mx) \/
  (r <> 0 /\ owner mx <> T /\ h = 0%nat).

Inductive thread_ok (T : SDL_ThreadID) (mx : SDL_Mutex) (h : nat) : activity -> Prop :=
| ok_idle :
    idle_ok T mx h -> thread_ok T mx h Idle
| ok_acq_entry o :
    o <> Release -> idle_ok T mx h -> Z.of_nat h < 2 ^ 31 ->
    thread_ok T mx h (Calling o (SDL_GetCurrentThreadID (after_tid o)))
| ok_acq_tid o :
    o <> Release -> idle_ok T mx h -> Z.of_nat h < 2 ^ 31 ->
    thread_ok T mx h (Calling o (after_tid o T))
| ok_acq_reentrant o :
    o <> Release -> owner mx = T -> Z.of_nat h = recursive mx + 1 ->
    Z.of_nat h < 2 ^ 31 ->
    thread_ok T mx h (Calling o lock_reentrant)
| ok_acq_increment o r :
    o <> Release -> owner mx = T -> Z.of_nat h = recursive mx + 1 ->
    Z.of_nat h < 2 ^ 31 -> r = recursive mx ->
    thread_ok T mx h (Calling o (store_recursive m (wrap_int (r + 1)) (Ret 0)))
| ok_acq_contended o :
    o <> Release -> owner mx <> T -> h = 0%nat ->
    thread_ok T mx h (Calling o (contended o T))
| ok_acq_wait o :
    o <> Release -> owner mx <> T -> h = 0%nat ->
    thread_ok T mx h (Calling o (SDL_WaitSemaphore (Some s) (after_wait o T)))
| ok_acq_claim o :
    o <> Release -> owner mx <> T -> h = 0%nat ->
    thread_ok T mx h (Calling o (claim T 0))
| ok_acq_claimed o :
    o <> Release -> owner mx = T -> h = 0%nat ->
    thread_ok T mx h (Calling o (store_recursive m 0 (Ret 0)))
| ok_acq_return o r :
    o <> Release -> acquired_ok T mx h r ->
    thread_ok T mx h (Calling o (Ret r))
| ok_rel_entry :
    release_ok T mx h ->
    thread_ok T mx h (Calling Release (SDL_GetCurrentThreadID unlock_after_tid))
| ok_rel_tid :
    release_ok T mx h ->
    thread_ok T mx h (Calling Release (unlock_after_tid T))
| ok_rel_error :
    owner mx <> T -> h = 0%nat ->
    thread_ok T mx h (Calling Release unlock_error)
| ok_rel_owned :
    owner mx = T -> Z.of_nat h = recursive mx ->
    thread_ok T mx h (Calling Release unlock_owned)
| ok_rel_decrement :
    owner mx = T -> Z.of_nat h = recursive mx -> recursive mx <> 0 ->
    thread_ok T mx h (Calling Release unlock_decrement)
| ok_rel_decrement_store r' :
    owner mx = T -> Z.of_nat h = recursive mx -> recursive mx <> 0 ->
    r' = recursive mx ->
    thread_ok T mx h (Calling Release (store_recursive m (wrap_int (r' - 1)) (Ret 0)))
| ok_rel_clear :
    owner mx = T -> h = 0%nat ->
    thread_ok T mx h (Calling Release unlock_clear)
| ok_rel_load_sem :
    owner mx <> T -> h = 0%nat ->
    thread_ok T mx h (Calling Release unlock_post)
| ok_rel_post :
    owner mx <> T -> h = 0%nat ->
    thread_ok T mx h (Calling Release (SDL_PostSemaphore (Some s) (fun _ => Ret 0)))
| ok_rel_return r :
    idle_ok T mx h ->
    thread_ok T mx h (Calling Release (Ret r)).

Definition has_token (mx : SDL_Mutex) (σ : system) (T : SDL_ThreadID) : Prop :=
  owner mx = T \/ token_in_hand (activity_of σ T) = true.

(** The invariant of the system, for the mutex object [mx] and the token
    count [count] of its semaphore. *)
Definition Inv_at (σ : system) (mx : SDL_Mutex) (count : N) : Prop :=
  lock_at (shared σ) m mx s count /\
  is_int (recursive mx) /\
  (count <= 1)%N /\
  (forall T, T <> NoOwner -> thread_ok T mx (holds_of σ T) (activity_of σ T)) /\
  (forall T, T <> NoOwner -> has_token mx σ T -> count = 0%N) /\
  (forall T U, T <> NoOwner -> U <> NoOwner ->
     has_token mx σ T -> has_token mx σ U -> T = U) /\
  holds_of σ NoOwner = 0%nat.

Definition Inv (σ : system) : Prop := exists mx count, Inv_at σ mx count.

(** The facts about T do not depend on the mutex while T is not its owner,
    nor on anything but [recursive] while it is. *)
Ltac same_point Hok :=
  destruct Hok;
  [ apply ok_idle | apply ok_acq_entry | apply ok_acq_tid | apply ok_acq_reentrant
  | apply ok_acq_increment | apply ok_acq_contended | apply ok_acq_wait
  | apply ok_acq_claim | apply ok_acq_claimed | apply ok_acq_return
  | apply ok_rel_entry | apply ok_rel_tid | apply ok_rel_error | apply ok_rel_owned
  | apply ok_rel_decrement | apply ok_rel_decrement_store | apply ok_rel_clear
  | apply ok_rel_load_sem | apply ok_rel_post | apply ok_rel_return ].

Lemma thread_ok_frame T mx mx' h a :
  thread_ok T mx h a ->
  (owner mx' = T <-> owner mx = T) ->
  (owner mx = T -> recursive mx' = recursive mx) ->
  thread_ok T mx' h a.
Proof.
  intros Hok Ho Hr.
  destruct (Z.eq_dec (owner mx) T) as [Heq|Hne].
  - assert (Heq' : owner mx' = T) by tauto. specialize (Hr Heq).
    same_point Hok; unfold idle_ok, release_ok, acquired_ok in *;
      rewrite ?Hr; tauto.
  - assert (Hne' : owner mx' <> T) by tauto.
    same_point Hok; unfold idle_ok, release_ok, acquired_ok in *; tauto.
Qed.

Lemma thread_ok_holds T mx h a :
  thread_ok T mx h a -> (0 < h)%nat -> owner mx = T.
Proof.
  destruct 1; unfold idle_ok, release_ok, acquired_ok in *; intros Hh;
    try done; try (intuition lia); lia.
Qed.

Lemma activity_of_update (w : world) (th : gmap Z activity) (h : gmap Z nat)
    (T U : SDL_ThreadID) (a : activity) :
  activity_of {| shared := w; threads := <[T := a]> th; holds := h |} U =
  if decide (U = T) then a else default Idle (th !! U).
Proof.
  unfold activity_of. cbn [threads]. destruct (decide (U = T)) as [->|Hne].
  - by rewrite lookup_insert_eq.
  - by rewrite lookup_insert_ne.
Qed.

Lemma holds_of_update (w : world) (th : gmap Z activity) (h : gmap Z nat)
    (T U : SDL_ThreadID) (n : nat) :
  holds_of {| shared := w; threads := th; holds := <[T := n]> h |} U =
  if decide (U = T) then n else default 0%nat (h !! U).
Proof.
  unfold holds_of. cbn [holds]. destruct (decide (U = T)) as [->|Hne].
  - by rewrite lookup_insert_eq.
  - by rewrite lookup_insert_ne.
Qed.

(** One thread T moves: what has to be checked for the invariant to hold
    again. *)
Lemma Inv_update (σ σ' : system) (T : SDL_ThreadID) (a' : activity) (h' : nat)
    (mx mx' : SDL_Mutex) (count count' : N) :
  T <> NoOwner ->
  Inv_at σ mx count ->
  lock_at (shared σ') m mx' s count' ->
  is_int (recursive mx') ->
  (count' <= 1)%N ->
  (forall U, activity_of σ' U = if decide (U = T) then a' else activity_of σ U) ->
  (forall U, holds_of σ' U = if decide (U = T) then h' else holds_of σ U) ->
  thread_ok T mx' h' a' ->
  (forall U, U <> T -> U <> NoOwner ->
     (owner mx' = U <-> owner mx = U) /\
     (owner mx = U -> recursive mx' = recursive mx)) ->
  (owner mx' = T \/ token_in_hand a' = true ->
     (has_token mx σ T \/ (0 < count)%N) /\ count' = 0%N) ->
  (count' <= count)%N \/ has_token mx σ T ->
  Inv_at σ' mx' count'.
Proof.
  intros HT (Hat & Hint & Hle & Hth & Hg2 & Hg3 & H0) Hat' Hint' Hle' Hact Hh HokT
    Hframe Htok Hcnt.
  assert (Hold : forall U, U <> T -> U <> NoOwner ->
            has_token mx' σ' U -> has_token mx σ U).
  { intros U Hne HU. unfold has_token. rewrite Hact.
    destruct (decide (U = T)); [done|]. destruct (Hframe U Hne HU) as [Hiff _].
    tauto. }
  assert (HnewT : has_token mx' σ' T ->
            (has_token mx σ T \/ (0 < count)%N) /\ count' = 0%N).
  { unfold has_token at 1. rewrite Hact.
    destruct (decide (T = T)); [exact Htok|done]. }
  split; [exact Hat'|]. split; [exact Hint'|]. split; [exact Hle'|].
  split; [|split; [|split]].
  - intros U HU. rewrite Hact, Hh. destruct (decide (U = T)) as [->|Hne]; [exact HokT|].
    destruct (Hframe U Hne HU) as [Hiff Hrec].
    eapply thread_ok_frame; [apply Hth, HU|exact Hiff|exact Hrec].
  - intros U HU HtU. destruct (decide (U = T)) as [->|Hne].
    + by apply HnewT.
    + pose proof (Hold U Hne HU HtU) as HtU'. pose proof (Hg2 U HU HtU') as Hz.
      destruct Hcnt as [Hle2|HtT]; [lia|]. by destruct (Hne (Hg3 U T HU HT HtU' HtT)).
  - intros U V HU HV HtU HtV.
    destruct (decide (U = T)) as [->|HneU]; destruct (decide (V = T)) as [->|HneV];
      try done.
    + pose proof (Hold V HneV HV HtV) as HtV'. pose proof (Hg2 V HV HtV') as Hz.
      destruct (HnewT HtU) as [[HtT|Hpos] _]; [|lia]. by apply Hg3.
    + pose proof (Hold U HneU HU HtU) as HtU'. pose proof (Hg2 U HU HtU') as Hz.
      destruct (HnewT HtV) as [[HtT|Hpos] _]; [|lia]. by apply Hg3.
    + apply Hg3; auto.
  - rewrite Hh. destruct (decide (NoOwner = T)); [congruence|exact H0].
Qed.

Lemma holds_of_same (σ : system) (w : world) (th : gmap Z activity)
    (T U : SDL_ThreadID) :
  holds_of {| shared := w; threads := th; holds := holds σ |} U =
  if decide (U = T) then holds_of σ T else holds_of σ U.
Proof. by destruct (decide (U = T)) as [->|]. Qed.

Lemma owner_keeps (σ : system) (T : SDL_ThreadID) (a' : activity)
    (mx : SDL_Mutex) (count : N) :
  T <> NoOwner -> Inv_at σ mx count ->
  token_in_hand a' = false ->
  owner mx = T \/ token_in_hand a' = true ->
  (has_token mx σ T \/ (0 < count)%N) /\ count = 0%N.
Proof.
  intros HT (_ & _ & _ & _ & Hg2 & _) Hno [Ho|Htok]; [|congruence].
  assert (has_token mx σ T) by (by left). split; [by left|]. by apply (Hg2 T).
Qed.

Lemma frame_same (mx : SDL_Mutex) (T : SDL_ThreadID) :
  forall U, U <> T -> U <> NoOwner ->
    (owner mx = U <-> owner mx = U) /\ (owner mx = U -> recursive mx = recursive mx).
Proof. done. Qed.

Lemma Inv_call (σ : system) (T : SDL_ThreadID) (o : lock_op)
    (mx : SDL_Mutex) (count : N) :
  Inv_at σ mx count -> T <> NoOwner -> activity_of σ T = Idle ->
  benign σ (LCall T o) ->
  Inv_at {| shared := shared σ;
            threads := <[T := Calling o (call o (Some m))]> (threads σ);
            holds := holds_on_call o T σ |} mx count.
Proof.
  intros HInv HT Hidle [_ Hben]. pose proof HInv as (Hat & Hint & Hle & Hth & _).
  pose proof (Hth T HT) as Hok. rewrite Hidle in Hok.
  inversion Hok as [Hi| | | | | | | | | | | | | | | | | | |].
  apply (Inv_update σ _ T (Calling o (call o (Some m)))
           (match o with Release => Nat.pred (holds_of σ T) | _ => holds_of σ T end)
           mx mx count count HT HInv).
  - exact Hat.
  - exact Hint.
  - exact Hle.
  - intros U. apply activity_of_update.
  - intros U. destruct o; cbn [holds_on_call];
      first [apply holds_of_same | apply holds_of_update].
  - destruct o.
    + apply (ok_acq_entry T mx _ Acquire); done.
    + apply (ok_acq_entry T mx _ TryAcquire); done.
    + apply ok_rel_entry. unfold idle_ok, release_ok in *.
      rewrite <- Nat.sub_1_r. destruct Hi as [(? & ? & ?)|[? ->]]; [left|right];
        split; try done; lia.
  - apply frame_same.
  - apply (owner_keeps σ T _ mx count HT HInv). by destruct o.
  - left. lia.
Qed.

Lemma Inv_return (σ : system) (T : SDL_ThreadID) (o : lock_op) (r : Z)
    (mx : SDL_Mutex) (count : N) :
  Inv_at σ mx count -> T <> NoOwner -> activity_of σ T = Calling o (Ret r) ->
  Inv_at {| shared := shared σ;
            threads := <[T := Idle]> (threads σ);
            holds := holds_on_return o r T σ |} mx count.
Proof.
  intros HInv HT Hact. pose proof HInv as (Hat & Hint & Hle & Hth & _).
  pose proof (Hth T HT) as Hok. rewrite Hact in Hok.
  apply (Inv_update σ _ T Idle
           (match o with
            | Release => holds_of σ T
            | _ => if r =? 0 then S (holds_of σ T) else holds_of σ T
            end) mx mx count count HT HInv).
  - exact Hat.
  - exact Hint.
  - exact Hle.
  - intros U. apply activity_of_update.
  - intros U. destruct o; cbn [holds_on_return]; try apply holds_of_same;
      destruct (r =? 0); first [apply holds_of_same | apply holds_of_update].
  - apply ok_idle.
    inversion Hok as [| | | | | | | | |o' r' Ho Hacq | | | | | | | | | |r' Hi];
      subst; [|done].
    unfold acquired_ok, idle_ok in *.
    destruct o; [| |done]; destruct (Z.eqb_spec r 0); lia.
  - apply frame_same.
  - by apply (owner_keeps σ T _ mx count HT HInv).
  - left. lia.
Qed.

Lemma lock_at_with_error (w : world) (msg : string) (mx : SDL_Mutex) (count : N) :
  lock_at w m mx s count -> lock_at (with_error msg w) m mx s count.
Proof. done. Qed.

Ltac exec_in H :=
  cbn [exec after_tid lock_reentrant contended claim unlock_after_tid unlock_error
       unlock_owned unlock_decrement unlock_clear unlock_post] in H;
  unfold do_get_thread_id, do_load, do_store, do_wait_semaphore, do_post_semaphore,
    do_set_error in H;
  repeat match goal with
         | E : _ !! _ = Some _ |- _ => rewrite E in H
         | E : sem _ = Some _ |- _ => rewrite E in H
         | E : this_thread _ = _ |- _ => rewrite E in H
         end;
  cbn [next] in H.

Ltac no_token o := intros Hfalse; exfalso; destruct o; cbn in Hfalse; congruence.

Lemma Inv_effect (σ : system) (T : SDL_ThreadID) (o : lock_op) (p : prog Z) (e : env)
    (ev : event) (w' : world) (p' : prog Z) (mx : SDL_Mutex) (count : N) :
  Inv_at σ mx count -> T <> NoOwner ->
  activity_of σ T = Calling o p -> this_thread e = T ->
  exec e (shared σ) p = Step ev w' p' ->
  benign σ (LEffect T o ev) ->
  exists mx' count',
    Inv_at {| shared := w'; threads := <[T := Calling o p']> (threads σ);
              holds := holds σ |} mx' count'.
Proof.
  intros HInv HT Hact He Hexec [Hben _].
  pose proof HInv as (Hat & Hint & Hle & Hth & Hg2 & Hg3 & _).
  pose proof Hat as (Hm & Hs & Hc).
  pose proof (Hth T HT) as Hok. rewrite Hact in Hok.
  assert (Hupd : forall a' mx' count',
    lock_at w' m mx' s count' -> is_int (recursive mx') -> (count' <= 1)%N ->
    p' = a' ->
    thread_ok T mx' (holds_of σ T) (Calling o a') ->
    (forall U, U <> T -> U <> NoOwner ->
       (owner mx' = U <-> owner mx = U) /\
       (owner mx = U -> recursive mx' = recursive mx)) ->
    (owner mx' = T \/ token_in_hand (Calling o a') = true ->
       (has_token mx σ T \/ (0 < count)%N) /\ count' = 0%N) ->
    (count' <= count)%N \/ has_token mx σ T ->
    exists mx' count',
      Inv_at {| shared := w'; threads := <[T := Calling o p']> (threads σ);
                holds := holds σ |} mx' count').
  { intros a' mx' count' H1 H2 H3 <- H4 H5 H6 H7. exists mx', count'.
    apply (Inv_update σ _ T (Calling o p') (holds_of σ T) mx mx' count count' HT HInv);
      try assumption.
    - intros U. apply activity_of_update.
    - intros U. apply holds_of_same. }
  assert (Hsame : forall a',
    lock_at w' m mx s count -> p' = a' ->
    thread_ok T mx (holds_of σ T) (Calling o a') ->
    (token_in_hand (Calling o a') = true -> has_token mx σ T) ->
    exists mx' count',
      Inv_at {| shared := w'; threads := <[T := Calling o p']> (threads σ);
                holds := holds σ |} mx' count').
  { intros a' H1 H2 H3 H4. apply (Hupd a' mx count); try done.
    - intros Hnew. assert (Hold : has_token mx σ T) by (destruct Hnew; [by left|auto]).
      split; [by left|]. by apply (Hg2 T).
    - left. lia. }
  assert (Hmine : forall mx', owner mx = T -> owner mx' = T ->
    forall U, U <> T -> U <> NoOwner ->
      (owner mx' = U <-> owner mx = U) /\
      (owner mx = U -> recursive mx' = recursive mx)).
  { intros mx' H1 H2 U HU _. split; [split|]; congruence. }
  assert (Hkeep : forall a' mx', owner mx = T ->
    owner mx' = T \/ token_in_hand (Calling o a') = true ->
    (has_token mx σ T \/ (0 < count)%N) /\ count = 0%N).
  { intros a' mx' H1 _. assert (has_token mx σ T) by (by left).
    split; [by left|]. by apply (Hg2 T). }
  remember (Calling o p) as a eqn:Ha.
  destruct Hok as
    [ Hi | o1 Ho Hi Hb | o1 Ho Hi Hb | o1 Ho Hown Hh Hb | o1 r Ho Hown Hh Hb Hr
    | o1 Ho Hnot Hh | o1 Ho Hnot Hh | o1 Ho Hnot Hh | o1 Ho Hown Hh | o1 r Ho Hacq
    | Hrel | Hrel | Hnot Hh | Hown Hh | Hown Hh Hnz | r' Hown Hh Hnz Hr
    | Hown Hh | Hnot Hh | Hnot Hh | r Hi ];
    simplify_eq; exec_in Hexec.
  - (* SDL_GetCurrentThreadID in an acquisition *)
    injection Hexec as <- <- <-.
    apply (Hsame (after_tid o (this_thread e))); [done..| |no_token o].
    by apply ok_acq_tid.
  - (* load of owner *)
    injection Hexec as <- <- <-.
    destruct (Z.eqb_spec (owner mx) (this_thread e)) as [Hown|Hnot].
    + apply (Hsame lock_reentrant); [done..| |no_token o].
      unfold idle_ok in Hi. apply ok_acq_reentrant; [done..|lia|done].
    + apply (Hsame (contended o (this_thread e))); [done..| |no_token o].
      unfold idle_ok in Hi. apply ok_acq_contended; [done..|lia].
  - (* load of recursive, re-entrant path *)
    injection Hexec as <- <- <-.
    apply (Hsame (store_recursive m (wrap_int (recursive mx + 1)) (Ret 0)));
      [done..| |no_token o].
    by apply ok_acq_increment.
  - (* the increment *)
    injection Hexec as <- <- <-.
    set (mx' := set_recursive (wrap_int (recursive mx + 1)) mx).
    apply (Hupd (Ret 0) mx' count);
      [by apply (lock_at_put_mutex _ m mx s count) | apply wrap_int_is_int | done
      | done | | by apply Hmine | by apply Hkeep | left; lia].
    apply ok_acq_return; [done|]. left. subst mx'. cbn [owner recursive set_recursive].
    rewrite wrap_int_id by (unfold is_int, INT_MIN, INT_MAX; lia). done.
  - (* load of sem, contended path *)
    injection Hexec as <- <- <-.
    apply (Hsame (SDL_WaitSemaphore (Some s) (after_wait o (this_thread e))));
      [done..| |no_token o].
    by apply ok_acq_wait.
  - (* SDL_WaitSemaphore *)
    destruct (wait_fails e).
    + injection Hexec as <- <- <-. destruct o; [done| |done].
      apply (Hsame (Ret SDL_ERROR)); [done..| |done].
      apply ok_acq_return; [done|]. by right.
    + destruct (N.ltb_spec 0 count) as [Hpos|_]; [|done].
      injection Hexec as <- <- <-.
      apply (Hupd (claim (this_thread e) 0) mx (N.pred count));
        [by apply (lock_at_put_semaphore _ m mx s count) | done | lia
        | by destruct o | by apply ok_acq_claim | apply frame_same
        | intros _; split; [by right|lia] | left; lia].
  - (* the store to owner after the wait *)
    injection Hexec as <- <- <-.
    assert (Htoken : has_token mx σ (this_thread e)).
    { right. rewrite Hact. by destruct o. }
    assert (Hnobody : forall U, U <> this_thread e -> U <> NoOwner -> owner mx <> U).
    { intros U HU1 HU2 HoU. apply HU1, (Hg3 U (this_thread e)); [done..|by left|done]. }
    set (mx' := set_owner (this_thread e) mx).
    apply (Hupd (store_recursive m 0 (Ret 0)) mx' count);
      [by apply (lock_at_put_mutex _ m mx s count) | done | done | done
      | by apply ok_acq_claimed | | | left; lia].
    + intros U HU1 HU2. specialize (Hnobody U HU1 HU2). subst mx'. cbn.
      split; [split|]; congruence.
    + intros _. split; [by left|]. by apply (Hg2 (this_thread e)).
  - (* the store of 0 to recursive by the new owner *)
    injection Hexec as <- <- <-.
    set (mx' := set_recursive 0 mx).
    apply (Hupd (Ret 0) mx' count);
      [by apply (lock_at_put_mutex _ m mx s count) | | done | done
      | | by apply Hmine | by apply Hkeep | left; lia].
    + unfold is_int, INT_MIN, INT_MAX. cbn. lia.
    + apply ok_acq_return; [done|]. left. subst mx'. cbn.
      split; [done|]. split; [done|lia].
  - (* SDL_GetCurrentThreadID in a release *)
    injection Hexec as <- <- <-.
    apply (Hsame (unlock_after_tid (this_thread e))); [done..| |done].
    by apply ok_rel_tid.
  - (* load of owner in a release *)
    injection Hexec as <- <- <-.
    destruct (Z.eqb_spec (this_thread e) (owner mx)) as [Hown|Hnot]; cbn [negb].
    + apply (Hsame unlock_owned); [done..| |done].
      unfold release_ok in Hrel. apply ok_rel_owned; [done|]. lia.
    + apply (Hsame unlock_error); [done..| |done].
      unfold release_ok in Hrel. apply ok_rel_error; [done|]. lia.
  - (* SDL_SetError *)
    injection Hexec as <- <- <-.
    apply (Hsame (Ret SDL_ERROR)); [by apply lock_at_with_error|done| |done].
    apply ok_rel_return. by right.
  - (* load of recursive in a release *)
    injection Hexec as <- <- <-.
    destruct (Z.eqb_spec (recursive mx) 0) as [Hz|Hnz]; cbn [negb].
    + apply (Hsame unlock_clear); [done..| |done].
      apply ok_rel_clear; [done|]. lia.
    + apply (Hsame unlock_decrement); [done..| |done].
      by apply ok_rel_decrement.
  - (* second load of recursive *)
    injection Hexec as <- <- <-.
    apply (Hsame (store_recursive m (wrap_int (recursive mx - 1)) (Ret 0)));
      [done..| |done].
    by apply ok_rel_decrement_store.
  - (* the decrement *)
    injection Hexec as <- <- <-.
    set (mx' := set_recursive (wrap_int (recursive mx - 1)) mx).
    apply (Hupd (Ret 0) mx' count);
      [by apply (lock_at_put_mutex _ m mx s count) | apply wrap_int_is_int | done
      | done | | by apply Hmine | by apply Hkeep | left; lia].
    apply ok_rel_return. left. subst mx'. cbn [owner recursive set_recursive].
    rewrite wrap_int_id by (unfold is_int, INT_MIN, INT_MAX in *; lia).
    split; [done|]. lia.
  - (* the store of 0 to owner *)
    injection Hexec as <- <- <-.
    set (mx' := set_owner 0 mx).
    apply (Hupd unlock_post mx' count);
      [by apply (lock_at_put_mutex _ m mx s count) | done | done | done
      | | | | left; lia].
    + apply ok_rel_load_sem; [|done]. subst mx'. cbn. unfold NoOwner in HT.
      congruence.
    + intros U HU1 HU2. subst mx'. cbn. unfold NoOwner in HU2.
      split; [split|]; congruence.
    + intros _. assert (has_token mx σ (this_thread e)) by (by left).
      split; [by left|]. by apply (Hg2 (this_thread e)).
  - (* load of sem in a release *)
    injection Hexec as <- <- <-.
    apply (Hsame (SDL_PostSemaphore (Some s) (fun _ => Ret 0))); [done..| |].
    + by apply ok_rel_post.
    + intros _. right. by rewrite Hact.
  - (* SDL_PostSemaphore *)
    assert (Htoken : has_token mx σ (this_thread e)) by (right; by rewrite Hact).
    pose proof (Hg2 _ HT Htoken) as ->.
    destruct (post_fails e); injection Hexec as <- <- <-.
    + apply (Hupd (Ret 0) mx 0%N);
        [done | done | done | done | | apply frame_same | | by left].
      * apply ok_rel_return. by right.
      * intros [?|?]; done.
    + apply (Hupd (Ret 0) mx 1%N);
        [by apply (lock_at_put_semaphore _ m mx s 0) | done | done | done
        | | apply frame_same | | by right].
      * apply ok_rel_return. by right.
      * intros [?|?]; done.
Qed.

Lemma step_Inv (σ σ' : system) (l : label) :
  Inv σ -> step m σ l σ' -> benign σ l -> Inv σ'.
Proof.
  intros (mx & count & HInv) Hstep Hben.
  destruct Hstep as [T o HT Hidle | T o p e ev w' p' HT Hact He Hexec | T o r HT Hact].
  - exists mx, count. by apply Inv_call.
  - by apply (Inv_effect σ T o p e ev w' p' mx count).
  - exists mx, count. by apply Inv_return.
Qed.

Lemma safe_execution_Inv (σ σ' : system) (ls : list label) :
  safe_execution m σ ls σ' -> Inv σ -> Inv σ'.
Proof.
  induction 1 as [|σ σ1 σ2 l ls Hstep Hben _ IH]; [done|].
  intros HInv. apply IH. by apply (step_Inv σ σ1 l).
Qed.

(** The lock as SDL_CreateMutex leaves it, before any thread has called. *)
Lemma Inv_initial (w : world) :
  lock_at w m (mkMutex 0 NoOwner (Some s)) s 1 -> Inv (initial w).
Proof.
  intros Hat. exists (mkMutex 0 NoOwner (Some s)), 1%N.
  assert (Hnone : forall T, T <> NoOwner ->
            ~ has_token (mkMutex 0 NoOwner (Some s)) (initial w) T).
  { intros T HT [Ho|Htok]; [by apply HT|].
    unfold activity_of in Htok. cbn in Htok. by rewrite lookup_empty in Htok. }
  split; [exact Hat|]. split; [unfold is_int, INT_MIN, INT_MAX; cbn; lia|].
  split; [lia|]. split; [|split; [|split]].
  - intros T HT. unfold activity_of, holds_of. cbn [threads holds initial].
    rewrite !lookup_empty. apply ok_idle. right. by split; [apply not_eq_sym|].
  - intros T HT Htok. by destruct (Hnone T HT).
  - intros T U HT _ Htok. by destruct (Hnone T HT).
  - unfold holds_of. cbn. by rewrite lookup_empty.
Qed.

(** In a state that satisfies the invariant, a thread in its critical
    section is the owner recorded in the mutex. *)
Lemma Inv_owner (σ : system) (mx : SDL_Mutex) (count : N) (T : SDL_ThreadID) :
  Inv_at σ mx count -> considers_itself_owner σ T -> owner mx = T.
Proof.
  intros (_ & _ & _ & Hth & _ & _ & H0) Hcs. unfold considers_itself_owner in Hcs.
  destruct (Z.eq_dec T NoOwner) as [->|HT]; [lia|].
  exact (thread_ok_holds T mx _ _ (Hth T HT) Hcs).
Qed.


(** ** [owner] is cleared only at depth zero *)

(** A thread about to clear [owner] (line 155) is the owner. *)
Lemma thread_ok_clearing (T : SDL_ThreadID) (mx : SDL_Mutex) (h : nat) :
  thread_ok T mx h (Calling Release unlock_clear) -> owner mx = T.
Proof. inversion 1; done. Qed.

(** A mutex without owner has a zero counter, and so has a mutex whose
    owner has read a zero counter and is about to clear [owner]. *)
Definition unowned_ok (σ : system) (mx : SDL_Mutex) : Prop :=
  (owner mx = NoOwner -> recursive mx = 0) /\
  (forall T, T <> NoOwner -> activity_of σ T = Calling Release unlock_clear ->
     recursive mx = 0).

Lemma unowned_update (σ : system) (T : SDL_ThreadID) (o : lock_op) (p' : prog Z)
    (w' : world) (mx mx' : SDL_Mutex) (count : N) :
  T <> NoOwner -> Inv_at σ mx count -> unowned_ok σ mx ->
  (owner mx' = NoOwner -> recursive mx' = 0) ->
  (o = Release -> p' = unlock_clear -> recursive mx' = 0) ->
  recursive mx' = recursive mx \/ owner mx = T ->
  unowned_ok {| shared := w'; threads := <[T := Calling o p']> (threads σ);
                holds := holds σ |} mx'.
Proof.
  intros HT (_ & _ & _ & Hth & _) [Hu1 Hu2] H1 H2 H3. split; [exact H1|].
  intros U HU. rewrite activity_of_update. destruct (decide (U = T)) as [->|Hne].
  - intros [= -> ->]. by apply H2.
  - intros Hact. destruct H3 as [->|Hown]; [by apply (Hu2 U)|].
    specialize (Hth U HU). unfold activity_of in Hth. rewrite Hact in Hth.
    apply thread_ok_clearing in Hth. congruence.
Qed.

Lemma unowned_step (σ σ' : system) (l : label) (mx mx' : SDL_Mutex) (count : N) :
  Inv_at σ mx count -> unowned_ok σ mx -> step m σ l σ' ->
  mutexes (shared σ') !! m = Some mx' -> unowned_ok σ' mx'.
Proof.
  intros HInv Hun Hstep Hmx'.
  pose proof HInv as (Hat & _ & _ & Hth & _). pose proof Hat as (Hm & Hs & Hc).
  destruct Hstep as [T o HT Hidle | T o p e ev w' p' HT Hact He Hexec | T o r HT Hact];
    cbn [shared] in Hmx'.
  - rewrite Hm in Hmx'. injection Hmx' as <-. split; [apply Hun|].
    intros U HU. rewrite activity_of_update.
    destruct (decide (U = T)); [by destruct o|by apply Hun].
  - pose proof (Hth T HT) as Hok. rewrite Hact in Hok.
    remember (Calling o p) as a eqn:Ha.
    destruct Hok as
      [ Hi | o1 Ho Hi Hb | o1 Ho Hi Hb | o1 Ho Hown Hh Hb | o1 r Ho Hown Hh Hb Hr
      | o1 Ho Hnot Hh | o1 Ho Hnot Hh | o1 Ho Hnot Hh | o1 Ho Hown Hh | o1 r Ho Hacq
      | Hrel | Hrel | Hnot Hh | Hown Hh | Hown Hh Hnz | r' Hown Hh Hnz Hr
      | Hown Hh | Hnot Hh | Hnot Hh | r Hi ];
      simplify_eq; exec_in Hexec.
    all: repeat match type of Hexec with
                | context [if ?b then _ else _] => destruct b eqn:?
                end;
         cbn [next] in Hexec; try discriminate Hexec; injection Hexec as <- <- <-;
         unfold with_mutexes, with_semaphores, with_error in Hmx';
         cbn [mutexes] in Hmx'; rewrite ?lookup_insert_eq in Hmx';
         rewrite ?Hm in Hmx'; injection Hmx' as <-;
         (apply (unowned_update σ _ _ _ _ mx _ count HT HInv Hun);
         [ unfold set_owner, set_recursive; cbn [owner recursive]; intros Hz;
           first [ exact (proj1 Hun Hz) | congruence | reflexivity
                 | exact (proj2 Hun _ HT Hact) ]
         | intros Ho' Hp;
           first [ congruence
                 | discriminate Hp
                 | match goal with
                   | H : negb (_ =? _) = false |- _ =>
                       apply negb_false_iff, Z.eqb_eq in H; exact H
                   end ]
         | first [ left; reflexivity | right; assumption ] ]).
  - rewrite Hm in Hmx'. injection Hmx' as <-. split; [apply Hun|].
    intros U HU. rewrite activity_of_update.
    destruct (decide (U = T)); [done|by apply Hun].
Qed.

(** Both invariants hold along every execution with benign steps only. *)
Lemma unowned_execution (σ σ' : system) (ls : list label) (mx : SDL_Mutex) (count : N) :
  safe_execution m σ ls σ' -> Inv_at σ mx count -> unowned_ok σ mx ->
  exists mx' count', Inv_at σ' mx' count' /\ unowned_ok σ' mx'.
Proof.
  intros Hexec. revert mx count.
  induction Hexec as [|σ σ1 σ2 l ls Hstep Hben _ IH]; intros mx count HInv Hun; [eauto|].
  destruct (step_Inv σ σ1 l (ex_intro _ mx (ex_intro _ count HInv)) Hstep Hben)
    as (mx1 & count1 & HInv1).
  apply (IH mx1 count1 HInv1).
  apply (unowned_step σ σ1 l mx mx1 count HInv Hun Hstep).
  by destruct HInv1 as ((? & _) & _).
Qed.

(** X21. In every interleaved execution in which no wait of SDL_LockMutex
    fails and no counter overflows, at every moment, also in the middle of
    the calls: a mutex with [owner] = 0 has [recursive] = 0, so that I2
    holds. *)
Theorem I2_when_no_wait_fails (w : world) (ls : list label) (σ : system) :
  lock_at w m (mkMutex 0 NoOwner (Some s)) s 1 ->
  safe_execution m (initial w) ls σ ->
  exists mx, mutexes (shared σ) !! m = Some mx /\
    (owner mx = NoOwner -> recursive mx = 0) /\ I2 mx.
Proof.
  intros Hat Hexec.
  destruct (Inv_initial w Hat) as (mx0 & count0 & HInv0).
  assert (Hmx0 : mx0 = mkMutex 0 NoOwner (Some s)).
  { destruct HInv0 as ((Hm0 & _) & _). destruct Hat as (Hm & _). cbn in Hm0. congruence. }
  assert (Hun0 : unowned_ok (initial w) mx0).
  { subst mx0. split; [done|]. intros T _ Hact. unfold activity_of in Hact.
    cbn in Hact. by rewrite lookup_empty in Hact. }
  destruct (unowned_execution _ _ _ mx0 count0 Hexec HInv0 Hun0)
    as (mx & count & ((Hm & _) & _) & [Hun _]).
  exists mx. split; [exact Hm|]. split; [exact Hun|].
  intros Hpos Ho. rewrite (Hun Ho) in Hpos. lia.
Qed.


End Safety.


(** Thread 1 acquires the free lock twice: it is the owner and the counter
    is 1. *)
Definition nested : system :=
  after_call 1 Acquire 0
    (put_mutex 1%positive (mkMutex 1 1 (Some 1%positive)) (shared one_holds))
    one_holds.

Definition nested_labels : list label :=
  lock_labels 1 NoOwner 0
  ++ LCall 1 Acquire
     :: map (LEffect 1 Acquire)
          [EvGetCurrentThreadID 1; EvLoadOwner 1%positive 1;
           EvLoadRecursive 1%positive 0; EvStoreRecursive 1%positive 1]
     ++ [LReturn 1 Acquire 0].

Lemma nested_reached :
  safe_execution 1%positive (initial free_lock) nested_labels nested.
Proof.
  eapply execution_app; [exact one_holds_reached|].
  apply (call_steps benign 1%positive 1 Acquire (thread 1));
    [by apply effects_benign | done | done | done | | done | reflexivity].
  split; [exact I|]. vm_compute. reflexivity.
Qed.

Lemma I2_when_no_wait_fails_witness :
  mutexes (shared nested) !! 1%positive = Some (mkMutex 1 1 (Some 1%positive)) /\
  0 < recursive (mkMutex 1 1 (Some 1%positive)) /\
  I2 (mkMutex 1 1 (Some 1%positive)).
Proof.
  destruct (I2_when_no_wait_fails 1%positive 1%positive free_lock nested_labels nested
              (lock_world_at NoOwner 0 1) nested_reached) as (mx & Hm & _ & HI).
  assert (Hnested : mutexes (shared nested) !! 1%positive =
                      Some (mkMutex 1 1 (Some 1%positive))) by reflexivity.
  rewrite Hnested in Hm. injection Hm as <-.
  split; [exact Hnested|]. split; [reflexivity|exact HI].
Defined.

(** * The bound on the nesting depth cannot be dropped *)

Lemma after_call_activity (T : SDL_ThreadID) (o : lock_op) (r : Z) (w' : world)
    (σ : system) (U : SDL_ThreadID) :
  activity_of (after_call T o r w' σ) U =
  if decide (U = T) then Idle else activity_of σ U.
Proof. apply activity_of_update. Qed.

Lemma after_call_holds (T : SDL_ThreadID) (o : lock_op) (w' : world)
    (σ : system) (U : SDL_ThreadID) :
  holds_of (after_call T o 0 w' σ) U =
  if decide (U = T) then
    match o with
    | Release => Nat.pred (holds_of σ T)
    | _ => S (holds_of σ T)
    end
  else holds_of σ U.
Proof.
  unfold after_call, holds_of at 1. cbn [holds].
  destruct o; cbn [holds_on_return holds_on_call Z.eqb holds];
    destruct (decide (U = T)) as [->|Hne];
    rewrite ?lookup_insert_eq, ?lookup_insert_ne by done; done.
Qed.

(** Successive acquisitions by one thread, as an execution of the system
    in which no wait fails. *)
Lemma acquire_steps (m : loc) (T : SDL_ThreadID) (es : list env) :
  forall (σ : system) (tr : list event) (w' : world),
  T <> NoOwner ->
  Forall (fun e => this_thread e = T /\ wait_fails e = false) es ->
  activity_of σ T = Idle ->
  calls (SDL_LockMutex (Some m)) es (shared σ) = Some (tr, w') ->
  exists ls σ',
    execution_where (fun _ l => wait_succeeds l) m σ ls σ' /\
    shared σ' = w' /\
    holds_of σ' T = (holds_of σ T + length es)%nat /\
    forall U, activity_of σ' U = activity_of σ U /\
              (U <> T -> holds_of σ' U = holds_of σ U).
Proof.
  induction es as [|e es IH]; intros σ tr w' HT Hes Hidle Hcalls.
  - cbn in Hcalls. injection Hcalls as <- <-. exists [], σ.
    split; [apply execution_nil|]. split; [done|]. split; [cbn; lia|done].
  - apply Forall_cons in Hes as [[He Hw] Hes]. cbn [calls] in Hcalls.
    destruct (run e (SDL_LockMutex (Some m)) (shared σ)) as [tr1 [r w1| |]] eqn:Hrun;
      try discriminate.
    destruct (Z.eqb_spec r 0) as [->|]; [|discriminate].
    destruct (calls (SDL_LockMutex (Some m)) es w1) as [[tr2 w2]|] eqn:Hrest;
      [|discriminate].
    injection Hcalls as <- <-.
    pose proof (call_steps (fun _ l => wait_succeeds l) m T Acquire e
                  (fun _ => effects_wait_succeeds T Acquire e Hw)
                  σ tr1 0 w1 HT He Hidle I (fun _ => I) Hrun) as Hexec.
    destruct (IH (after_call T Acquire 0 w1 σ) tr2 w2 HT Hes) as
      (ls & σ' & Hexec' & Hsh & Hh & Hothers).
    { rewrite after_call_activity. by destruct (decide (T = T)). }
    { exact Hrest. }
    eexists (_ ++ ls), σ'. split; [eapply execution_app; eauto|].
    split; [exact Hsh|]. split.
    + rewrite Hh, after_call_holds. destruct (decide (T = T)); [|done]. cbn [length]. lia.
    + intros U. destruct (Hothers U) as [Ha Hh'].
      rewrite Ha, after_call_activity. split.
      * destruct (decide (U = T)) as [->|]; [by rewrite Hidle|done].
      * intros HU. rewrite (Hh' HU), after_call_holds. by destruct (decide (U = T)).
Qed.

(** Without the bound, and with no wait failing: thread 1 acquires the
    lock [S n] times, the counter wraps to 0, one release frees the lock
    and thread 2 acquires it while thread 1 still holds [n] acquisitions. *)
Lemma wrapped_counter_lets_second_owner_in (n : nat) :
  wrap_int (Z.of_nat n) = 0 -> (0 < n)%nat ->
  exists ls σ,
    execution_where (fun _ l => wait_succeeds l) 1%positive (initial free_lock) ls σ /\
    considers_itself_owner σ 1 /\ considers_itself_owner σ 2.
Proof.
  intros Hwrap Hn.
  destruct (wrapped_counter_frees_early n Hwrap)
    as (trN & wN & tr1 & w1 & HcallsN & HcallsU & Hat1).
  destruct (acquire_steps 1%positive 1 (replicate (S n) (thread 1))
              (initial free_lock) trN wN)
    as (ls1 & σ1 & Hexec1 & Hsh1 & Hh1 & Hothers1); [done| |done|exact HcallsN|].
  { by apply Forall_replicate. }
  rewrite length_replicate in Hh1.
  (* the release by thread 1 *)
  cbn [calls] in HcallsU.
  destruct (run (thread 1) (SDL_UnlockMutex (Some 1%positive)) wN)
    as [trU [r wU| |]] eqn:HrunU; try discriminate.
  destruct (Z.eqb_spec r 0) as [->|]; [|discriminate].
  injection HcallsU as <- <-. rewrite <- Hsh1 in HrunU.
  pose proof (call_steps (fun _ l => wait_succeeds l) 1%positive 1 Release (thread 1)
                (fun _ => effects_wait_succeeds 1 Release (thread 1) eq_refl)
                σ1 trU 0 wU ltac:(done) eq_refl) as Hexec2.
  specialize (Hexec2 ltac:(by rewrite (proj1 (Hothers1 1))) I (fun _ => I) HrunU).
  set (σ2 := after_call 1 Release 0 wU σ1) in Hexec2.
  (* the acquisition by thread 2 *)
  destruct Hat1 as (Hm & Hs & Hc).
  pose proof (run_lock_takes_token (thread 2) wU _ _ Hm _ _ Hs Hc
                ltac:(discriminate) eq_refl eq_refl) as Hrun3.
  assert (Hidle2 : activity_of σ2 2 = Idle).
  { subst σ2. rewrite after_call_activity. destruct (decide (2 = 1)); [done|].
    by rewrite (proj1 (Hothers1 2)). }
  match type of Hrun3 with
  | _ = (?tr3, Done 0 ?w3) =>
      pose proof (call_steps (fun _ l => wait_succeeds l) 1%positive 2 Acquire
                    (thread 2)
                    (fun _ => effects_wait_succeeds 2 Acquire (thread 2) eq_refl)
                    σ2 tr3 0 w3 ltac:(done) eq_refl Hidle2 I (fun _ => I) Hrun3)
        as Hexec3
  end.
  eexists _, _. split.
  { eapply execution_app; [exact Hexec1|].
    eapply execution_app; [exact Hexec2|exact Hexec3]. }
  unfold considers_itself_owner. rewrite !after_call_holds.
  destruct (decide (1 = 2)); [done|]. destruct (decide (2 = 2)); [|done].
  split; [|lia]. subst σ2. rewrite after_call_holds.
  destruct (decide (1 = 1)); [|done]. rewrite Hh1. lia.
Qed.

(** With 2^32 + 1 acquisitions by thread 1. *)
Lemma mutual_exclusion_needs_bound :
  exists ls σ,
    execution_where (fun _ l => wait_succeeds l) 1%positive (initial free_lock) ls σ /\
    (1 : Z) <> 2 /\
    considers_itself_owner σ 1 /\ considers_itself_owner σ 2.
Proof.
  destruct (wrapped_counter_lets_second_owner_in (Z.to_nat 4294967296))
    as (ls & σ & H1 & H2 & H3).
  - rewrite Z2Nat.id by lia. reflexivity.
  - apply Nat2Z.inj_lt. rewrite Z2Nat.id by lia. lia.
  - exists ls, σ. split; [exact H1|]. split; [discriminate|]. split; [exact H2|exact H3].
Qed.

(** * Destruction *)

Lemma run_destroy (e : env) (w : world) (m s : loc) (mx : SDL_Mutex) (count : N) :
  lock_at w m mx s count ->
  run e (SDL_DestroyMutex (Some m)) w =
  ([EvLoadSem m (Some s); EvLoadSem m (Some s); EvDestroySemaphore (Some s); EvFree m],
   Done tt (with_mutexes (delete m (mutexes w))
              (with_semaphores (delete s (semaphores w)) w))).
Proof.
  intros (Hm & Hs & Hc). unfold SDL_DestroyMutex. run_effects. reflexivity.
Qed.

(** X1. SDL_DestroyMutex on a live mutex with a live semaphore destroys the
    semaphore, then frees the object, and returns: afterwards neither
    address is allocated, and every other mutex and semaphore is as before.
    Nothing about [owner] or [recursive] is looked at: a held mutex is
    destroyed just the same. *)
Theorem SDL_DestroyMutex_frees (e : env) (w : world) (m s : loc) (mx : SDL_Mutex)
    (count : N) :
  lock_at w m mx s count ->
  exists w',
    run e (SDL_DestroyMutex (Some m)) w =
      ([EvLoadSem m (Some s); EvLoadSem m (Some s);
        EvDestroySemaphore (Some s); EvFree m], Done tt w') /\
    mutexes w' !! m = None /\ semaphores w' !! s = None /\
    (forall m', m' <> m -> mutexes w' !! m' = mutexes w !! m') /\
    (forall s', s' <> s -> semaphores w' !! s' = semaphores w !! s') /\
    last_error w' = last_error w.
Proof.
  intros Hat. eexists. split; [apply (run_destroy e w m s mx count Hat)|].
  cbn [mutexes semaphores last_error with_mutexes with_semaphores].
  split; [apply lookup_delete_eq|]. split; [apply lookup_delete_eq|].
  split; [|split; [|reflexivity]].
  - intros m' Hne. by apply lookup_delete_ne.
  - intros s' Hne. by apply lookup_delete_ne.
Qed.

Lemma SDL_DestroyMutex_frees_witness :
  exists w',
    run (thread 2) (SDL_DestroyMutex (Some 1%positive)) (held_by 1 3) =
      ([EvLoadSem 1%positive (Some 1%positive); EvLoadSem 1%positive (Some 1%positive);
        EvDestroySemaphore (Some 1%positive); EvFree 1%positive], Done tt w') /\
    mutexes w' !! 1%positive = None /\ semaphores w' !! 1%positive = None /\
    (forall m', m' <> 1%positive -> mutexes w' !! m' = mutexes (held_by 1 3) !! m') /\
    (forall s', s' <> 1%positive ->
       semaphores w' !! s' = semaphores (held_by 1 3) !! s') /\
    last_error w' = last_error (held_by 1 3).
Proof.
  exact (SDL_DestroyMutex_frees (thread 2) (held_by 1 3) 1%positive 1%positive
           (mkMutex 3 1 (Some 1%positive)) 0%N (lock_world_at 1 3 0)).
Defined.

(** X2. SDL_DestroyMutex on a mutex object whose [sem] is NULL (the guard
    of line 64) calls no semaphore function: it frees the object and leaves
    all semaphores alone. *)
Theorem SDL_DestroyMutex_without_semaphore (e : env) (w : world) (m : loc)
    (mx : SDL_Mutex) :
  mutexes w !! m = Some mx -> sem mx = NULL ->
  run e (SDL_DestroyMutex (Some m)) w =
  ([EvLoadSem m NULL; EvFree m], Done tt (with_mutexes (delete m (mutexes w)) w)).
Proof.
  intros Hm Hs. unfold SDL_DestroyMutex. run_effects. reflexivity.
Qed.

(** A mutex object as SDL_calloc returns it, before it has a semaphore. *)
Definition half_built : world :=
  {| mutexes := {[ 1%positive := zeroed ]}; semaphores := ∅; last_error := None |}.

Lemma SDL_DestroyMutex_without_semaphore_witness :
  run (thread 1) (SDL_DestroyMutex (Some 1%positive)) half_built =
  ([EvLoadSem 1%positive NULL; EvFree 1%positive],
   Done tt (with_mutexes (delete 1%positive (mutexes half_built)) half_built)).
Proof.
  apply (SDL_DestroyMutex_without_semaphore (thread 1) half_built 1%positive zeroed).
  - apply lookup_singleton_eq.
  - reflexivity.
Defined.

(** * Construction composed with the other operations *)

Lemma world_eta (w : world) :
  {| mutexes := mutexes w; semaphores := semaphores w; last_error := last_error w |} = w.
Proof. by destruct w. Qed.

Lemma created_is_lock_at (e : env) (w : world) :
  calloc_fails e = false -> create_fails e = false ->
  run e SDL_CreateMutex w =
    ((run e SDL_CreateMutex w).1,
     Done (Some (fresh_mutex w))
       (put_mutex (fresh_mutex w) (mkMutex 0 NoOwner (Some (fresh_semaphore w)))
          (put_semaphore (fresh_semaphore w) 1 w))) /\
  lock_at
    (put_mutex (fresh_mutex w) (mkMutex 0 NoOwner (Some (fresh_semaphore w)))
       (put_semaphore (fresh_semaphore w) 1 w))
    (fresh_mutex w) (mkMutex 0 NoOwner (Some (fresh_semaphore w)))
    (fresh_semaphore w) 1.
Proof.
  intros H1 H2. split.
  - by rewrite (run_create_succeeds e w H1 H2).
  - repeat split; apply lookup_insert_eq.
Qed.

(** X3. Round trip: a mutex returned by SDL_CreateMutex and passed at once
    to SDL_DestroyMutex leaves the world exactly as it was before the
    creation. *)
Theorem create_destroy_round_trip (e e' : env) (w : world) :
  calloc_fails e = false -> create_fails e = false ->
  exists m tr1 w1 tr2,
    run e SDL_CreateMutex w = (tr1, Done (Some m) w1) /\
    run e' (SDL_DestroyMutex (Some m)) w1 = (tr2, Done tt w).
Proof.
  intros H1 H2. destruct (created_is_lock_at e w H1 H2) as [Hrun Hat].
  eexists _, _, _, _. split; [exact Hrun|].
  rewrite (run_destroy e' _ _ _ _ _ Hat). f_equal. f_equal.
  unfold put_mutex, put_semaphore, with_mutexes, with_semaphores.
  cbn [mutexes semaphores last_error].
  rewrite (delete_insert_id (mutexes w)) by apply fresh_mutex_unallocated.
  rewrite (delete_insert_id (semaphores w)) by apply fresh_semaphore_unallocated.
  apply world_eta.
Qed.

Lemma create_destroy_round_trip_witness :
  exists m tr1 w1 tr2,
    run (thread 1) SDL_CreateMutex (held_by 1 0) = (tr1, Done (Some m) w1) /\
    run (thread 2) (SDL_DestroyMutex (Some m)) w1 = (tr2, Done tt (held_by 1 0)).
Proof.
  apply (create_destroy_round_trip (thread 1) (thread 2) (held_by 1 0));
    reflexivity.
Defined.

(** X4. A mutex just returned by SDL_CreateMutex can be locked at once by
    any thread, by SDL_LockMutex as well as by SDL_TryLockMutex, provided
    its wait does not fail: the call returns 0 without being suspended, the
    caller is the owner, the counter is 0 and the semaphore has no token
    left. *)
Theorem created_mutex_can_be_locked (e eL : env) (w : world) :
  calloc_fails e = false -> create_fails e = false ->
  this_thread eL <> NoOwner -> wait_fails eL = false ->
  exists m s w1,
    (run e SDL_CreateMutex w).2 = Done (Some m) w1 /\
    (exists w2, (run eL (SDL_LockMutex (Some m)) w1).2 = Done 0 w2 /\
       lock_at w2 m (mkMutex 0 (this_thread eL) (Some s)) s 0) /\
    (exists w2, (run eL (SDL_TryLockMutex (Some m)) w1).2 = Done 0 w2 /\
       lock_at w2 m (mkMutex 0 (this_thread eL) (Some s)) s 0).
Proof.
  intros H1 H2 HT Hw. destruct (created_is_lock_at e w H1 H2) as [Hrun Hat].
  pose proof Hat as (Hm & Hs & Hc).
  assert (Hafter : forall w1 mx, lock_at w1 (fresh_mutex w) mx (fresh_semaphore w) 1 ->
    lock_at (put_mutex (fresh_mutex w)
               (mkMutex 0 (this_thread eL) (Some (fresh_semaphore w)))
               (put_semaphore (fresh_semaphore w) (N.pred 1) w1))
      (fresh_mutex w) (mkMutex 0 (this_thread eL) (Some (fresh_semaphore w)))
      (fresh_semaphore w) 0).
  { intros w1 mx _. repeat split; apply lookup_insert_eq. }
  eexists _, (fresh_semaphore w), _. split; [by rewrite Hrun|]. split.
  - rewrite (run_lock_takes_token eL _ _ _ Hm _ _ Hs Hc); [|by apply not_eq_sym|done..].
    eexists. split; [reflexivity|]. by apply (Hafter _ _ Hat).
  - rewrite (run_trylock_takes_token eL _ _ _ Hm _ _ Hs Hc);
      [|by apply not_eq_sym|done..].
    eexists. split; [reflexivity|]. by apply (Hafter _ _ Hat).
Qed.

Lemma created_mutex_can_be_locked_witness :
  exists m s w1,
    (run (thread 1) SDL_CreateMutex empty_world).2 = Done (Some m) w1 /\
    (exists w2, (run (thread 7) (SDL_LockMutex (Some m)) w1).2 = Done 0 w2 /\
       lock_at w2 m (mkMutex 0 7 (Some s)) s 0) /\
    (exists w2, (run (thread 7) (SDL_TryLockMutex (Some m)) w1).2 = Done 0 w2 /\
       lock_at w2 m (mkMutex 0 7 (Some s)) s 0).
Proof.
  apply (created_mutex_can_be_locked (thread 1) (thread 7) empty_world);
    [reflexivity|reflexivity|discriminate|reflexivity].
Defined.

(** X5. Two mutexes created one after the other are distinct objects with
    distinct semaphores, both free, each with its own token: the second
    creation changes nothing of the first mutex. *)
Theorem create_twice_distinct (e1 e2 : env) (w : world) :
  calloc_fails e1 = false -> create_fails e1 = false ->
  calloc_fails e2 = false -> create_fails e2 = false ->
  exists m1 m2 s1 s2 w1 w2,
    (run e1 SDL_CreateMutex w).2 = Done (Some m1) w1 /\
    (run e2 SDL_CreateMutex w1).2 = Done (Some m2) w2 /\
    m1 <> m2 /\ s1 <> s2 /\
    lock_at w2 m1 (mkMutex 0 NoOwner (Some s1)) s1 1 /\
    lock_at w2 m2 (mkMutex 0 NoOwner (Some s2)) s2 1.
Proof.
  intros Ha1 Hb1 Ha2 Hb2.
  destruct (created_is_lock_at e1 w Ha1 Hb1) as [Hrun1 Hat1].
  set (w1 := put_mutex (fresh_mutex w) (mkMutex 0 NoOwner (Some (fresh_semaphore w)))
               (put_semaphore (fresh_semaphore w) 1 w)) in *.
  destruct (created_is_lock_at e2 w1 Ha2 Hb2) as [Hrun2 Hat2].
  destruct Hat1 as (Hm1 & _ & Hc1).
  assert (Hne_m : fresh_mutex w <> fresh_mutex w1).
  { intros Heq. pose proof (fresh_mutex_unallocated w1) as Hnone.
    rewrite <- Heq in Hnone. congruence. }
  assert (Hne_s : fresh_semaphore w <> fresh_semaphore w1).
  { intros Heq. pose proof (fresh_semaphore_unallocated w1) as Hnone.
    rewrite <- Heq in Hnone. congruence. }
  eexists (fresh_mutex w), (fresh_mutex w1), (fresh_semaphore w), (fresh_semaphore w1),
    w1, _.
  split; [by rewrite Hrun1|]. split; [by rewrite Hrun2|].
  split; [exact Hne_m|]. split; [exact Hne_s|]. split; [|exact Hat2].
  repeat split; cbn [put_mutex put_semaphore mutexes semaphores with_mutexes
                     with_semaphores];
    rewrite ?lookup_insert_ne by (by apply not_eq_sym); done.
Qed.

Lemma create_twice_distinct_witness :
  exists m1 m2 s1 s2 w1 w2,
    (run (thread 1) SDL_CreateMutex empty_world).2 = Done (Some m1) w1 /\
    (run (thread 2) SDL_CreateMutex w1).2 = Done (Some m2) w2 /\
    m1 <> m2 /\ s1 <> s2 /\
    lock_at w2 m1 (mkMutex 0 NoOwner (Some s1)) s1 1 /\
    lock_at w2 m2 (mkMutex 0 NoOwner (Some s2)) s2 1.
Proof.
  apply (create_twice_distinct (thread 1) (thread 2) empty_world); reflexivity.
Defined.

(** * SDL_TryLockMutex and SDL_LockMutex *)

(** X6. As long as the semaphore wait does not report a failure,
    SDL_TryLockMutex does exactly what SDL_LockMutex does, effect for
    effect, on every pointer and in every state of memory: the same trace,
    the same result, the same suspension. *)
Theorem SDL_TryLockMutex_is_SDL_LockMutex (e : env) (w : world) (mutex : ptr) :
  wait_fails e = false ->
  run e (SDL_TryLockMutex mutex) w = run e (SDL_LockMutex mutex) w.
Proof.
  intros Hw. destruct mutex as [m|]; [|reflexivity].
  unfold SDL_TryLockMutex, SDL_LockMutex.
  cbn [run and_then do_get_thread_id]. unfold do_load.
  destruct (mutexes w !! m) as [mx|] eqn:Hm; [|reflexivity].
  cbn [and_then]. f_equal.
  destruct (owner mx =? this_thread e); [reflexivity|].
  cbn [run and_then]. unfold do_load. rewrite Hm. cbn [and_then]. f_equal.
  cbn [run]. unfold do_wait_semaphore. rewrite Hw.
  destruct (sem mx) as [s|]; [|reflexivity].
  destruct (semaphores w !! s) as [count|]; [|reflexivity].
  destruct (0 <? count)%N; reflexivity.
Qed.

Lemma SDL_TryLockMutex_is_SDL_LockMutex_witness :
  run (thread 2) (SDL_TryLockMutex (Some 1%positive)) (held_by 1 0) =
  run (thread 2) (SDL_LockMutex (Some 1%positive)) (held_by 1 0).
Proof.
  apply (SDL_TryLockMutex_is_SDL_LockMutex (thread 2) (held_by 1 0) (Some 1%positive)).
  reflexivity.
Defined.

(** X7. The outcomes of SDL_TryLockMutex on a well-formed lock.  Unlike
    SDL_LockMutex it looks at the result of the wait: when the wait fails
    it returns that error and has changed nothing at all.  Whenever it
    returns 0 the caller is the owner recorded in the mutex. *)
Theorem SDL_TryLockMutex_outcome (e : env) (w : world) (m s : loc)
    (mx : SDL_Mutex) (count : N) :
  lock_at w m mx s count ->
  (run e (SDL_TryLockMutex (Some m)) w).2 =
    (if owner mx =? this_thread e then
       Done 0 (put_mutex m (set_recursive (wrap_int (recursive mx + 1)) mx) w)
     else if wait_fails e then Done SDL_ERROR w
     else if (0 <? count)%N then
       Done 0 (put_mutex m (mkMutex 0 (this_thread e) (sem mx))
                 (put_semaphore s (N.pred count) w))
     else Blocked w) /\
  (forall r w', (run e (SDL_TryLockMutex (Some m)) w).2 = Done r w' ->
     (r = 0 /\ exists mx', mutexes w' !! m = Some mx' /\ owner mx' = this_thread e) \/
     (r = SDL_ERROR /\ w' = w /\ owner mx <> this_thread e)).
Proof.
  intros (Hm & Hs & Hc).
  assert (Heq : (run e (SDL_TryLockMutex (Some m)) w).2 =
    (if owner mx =? this_thread e then
       Done 0 (put_mutex m (set_recursive (wrap_int (recursive mx + 1)) mx) w)
     else if wait_fails e then Done SDL_ERROR w
     else if (0 <? count)%N then
       Done 0 (put_mutex m (mkMutex 0 (this_thread e) (sem mx))
                 (put_semaphore s (N.pred count) w))
     else Blocked w)).
  { destruct (Z.eqb_spec (owner mx) (this_thread e)) as [Ho|Ho].
    - by rewrite (run_trylock_reentrant e w m mx Hm Ho).
    - destruct (wait_fails e) eqn:Hw.
      + by rewrite (run_trylock_wait_fails e w m mx Hm s count Hs Hc Ho Hw).
      + destruct (N.ltb_spec 0 count) as [Hpos|Hz].
        * by rewrite (run_trylock_takes_token e w m mx Hm s count Hs Hc Ho Hw Hpos).
        * rewrite (run_trylock_blocks e w m mx Hm s count Hs Hc Ho Hw); [done|lia]. }
  split; [exact Heq|]. intros r w'. rewrite Heq.
  destruct (Z.eqb_spec (owner mx) (this_thread e)) as [Ho|Ho].
  - intros [= <- <-]. left. split; [done|]. eexists. split; [apply lookup_insert_eq|done].
  - destruct (wait_fails e).
    + intros [= <- <-]. by right.
    + destruct (0 <? count)%N; [|done].
      intros [= <- <-]. left. split; [done|].
      eexists. split; [apply lookup_insert_eq|done].
Qed.

Lemma SDL_TryLockMutex_outcome_witness :
  (run (thread_wait_failing 2) (SDL_TryLockMutex (Some 1%positive)) (held_by 1 0)).2 =
    Done SDL_ERROR (held_by 1 0) /\
  (forall r w',
     (run (thread_wait_failing 2) (SDL_TryLockMutex (Some 1%positive)) (held_by 1 0)).2 =
       Done r w' ->
     (r = 0 /\ exists mx', mutexes w' !! 1%positive = Some mx' /\ owner mx' = 2) \/
     (r = SDL_ERROR /\ w' = held_by 1 0 /\ (1 : Z) <> 2)).
Proof.
  exact (SDL_TryLockMutex_outcome (thread_wait_failing 2) (held_by 1 0)
           1%positive 1%positive (mkMutex 0 1 (Some 1%positive)) 0%N
           (lock_world_at 1 0 0)).
Defined.

(** * SDL_UnlockMutex *)

(** X8. SDL_UnlockMutex on a well-formed lock always returns: it is never
    suspended (it calls no wait) and never faults.  It returns 0 exactly
    when the caller is the owner recorded in the mutex, and -1 otherwise. *)
Theorem SDL_UnlockMutex_result (e : env) (w : world) (m s : loc)
    (mx : SDL_Mutex) (count : N) :
  lock_at w m mx s count ->
  exists tr r w',
    run e (SDL_UnlockMutex (Some m)) w = (tr, Done r w') /\
    (r = 0 <-> this_thread e = owner mx) /\
    (r = 0 \/ r = SDL_ERROR) /\
    existsb is_wait tr = false.
Proof.
  intros (Hm & Hs & Hc).
  destruct (Z.eq_dec (this_thread e) (owner mx)) as [Ho|Ho].
  - destruct (Z.eq_dec (recursive mx) 0) as [Hr|Hr].
    + rewrite (run_unlock_outermost e w m mx Hm s count Hs Hc Ho Hr).
      eexists _, _, _. split; [reflexivity|]. split; [done|]. split; [by left|done].
    + rewrite (run_unlock_inner e w m mx Hm Ho Hr).
      eexists _, _, _. split; [reflexivity|]. split; [done|]. split; [by left|done].
  - rewrite (run_unlock_not_owner e w m mx Hm Ho).
    eexists _, _, _. split; [reflexivity|]. split; [|split; [by right|done]].
    split; [discriminate|done].
Qed.

Lemma SDL_UnlockMutex_result_witness :
  exists tr r w',
    run (thread 2) (SDL_UnlockMutex (Some 1%positive)) (held_by 1 0) =
      (tr, Done r w') /\
    (r = 0 <-> (2 : Z) = 1) /\
    (r = 0 \/ r = SDL_ERROR) /\
    existsb is_wait tr = false.
Proof.
  exact (SDL_UnlockMutex_result (thread 2) (held_by 1 0) 1%positive 1%positive
           (mkMutex 0 1 (Some 1%positive)) 0%N (lock_world_at 1 0 0)).
Defined.

(** * Acquire followed by release *)

Lemma put_mutex_same (w : world) (m : loc) (mx : SDL_Mutex) :
  mutexes w !! m = Some mx -> put_mutex m mx w = w.
Proof.
  intros Hm. unfold put_mutex, with_mutexes. rewrite (insert_id _ _ _ Hm).
  apply world_eta.
Qed.

Lemma put_mutex_put_mutex (w : world) (m : loc) (mx mx' : SDL_Mutex) :
  put_mutex m mx' (put_mutex m mx w) = put_mutex m mx' w.
Proof.
  unfold put_mutex, with_mutexes. cbn [mutexes semaphores last_error].
  by rewrite insert_insert_eq.
Qed.

(** X9. Round trip on the re-entrant path: when the caller already owns the
    mutex, with a counter from 0 to INT_MAX - 1, SDL_LockMutex followed by
    SDL_UnlockMutex both return 0 and leave the world exactly as it was. *)
Theorem reentrant_lock_unlock_round_trip (e e' : env) (w : world) (m : loc)
    (mx : SDL_Mutex) :
  mutexes w !! m = Some mx ->
  owner mx = this_thread e -> this_thread e' = this_thread e ->
  0 <= recursive mx < INT_MAX ->
  exists tr1 w1 tr2,
    run e (SDL_LockMutex (Some m)) w = (tr1, Done 0 w1) /\
    run e' (SDL_UnlockMutex (Some m)) w1 = (tr2, Done 0 w).
Proof.
  intros Hm Ho He' [Hlo Hhi]. unfold INT_MAX in Hhi.
  set (mx1 := set_recursive (wrap_int (recursive mx + 1)) mx).
  assert (Hr1 : recursive mx1 = recursive mx + 1).
  { subst mx1. cbn. apply wrap_int_id. unfold is_int, INT_MIN, INT_MAX. lia. }
  assert (Hm1 : mutexes (put_mutex m mx1 w) !! m = Some mx1) by apply lookup_insert_eq.
  eexists _, _, _. split; [apply (run_lock_reentrant e w m mx Hm Ho)|]. fold mx1.
  rewrite (run_unlock_inner e' _ m mx1 Hm1); [|cbn; congruence|lia].
  f_equal. f_equal. rewrite put_mutex_put_mutex, Hr1.
  replace (recursive mx + 1 - 1) with (recursive mx) by lia.
  rewrite wrap_int_id by (unfold is_int, INT_MIN, INT_MAX; lia).
  replace (set_recursive (recursive mx) mx1) with mx by (by destruct mx).
  by apply put_mutex_same.
Qed.

Lemma reentrant_lock_unlock_round_trip_witness :
  exists tr1 w1 tr2,
    run (thread 1) (SDL_LockMutex (Some 1%positive)) (held_by 1 3) = (tr1, Done 0 w1) /\
    run (thread 1) (SDL_UnlockMutex (Some 1%positive)) w1 = (tr2, Done 0 (held_by 1 3)).
Proof.
  apply (reentrant_lock_unlock_round_trip (thread 1) (thread 1) (held_by 1 3) 1%positive
           (mkMutex 3 1 (Some 1%positive))).
  - apply lookup_singleton_eq.
  - reflexivity.
  - reflexivity.
  - unfold INT_MAX. simpl. lia.
Defined.

(** X10. Round trip on a free lock: a thread that takes the token of a free
    mutex (counter 0) with SDL_LockMutex and releases it with
    SDL_UnlockMutex, neither semaphore call failing, leaves the world
    exactly as it was: [owner] is 0 again and the token is back. *)
Theorem free_lock_unlock_round_trip (e e' : env) (w : world) (m s : loc)
    (mx : SDL_Mutex) (count : N) :
  lock_at w m mx s count ->
  owner mx = NoOwner -> recursive mx = 0 ->
  this_thread e <> NoOwner -> this_thread e' = this_thread e ->
  wait_fails e = false -> (0 < count)%N -> post_fails e' = false ->
  exists tr1 w1 tr2,
    run e (SDL_LockMutex (Some m)) w = (tr1, Done 0 w1) /\
    run e' (SDL_UnlockMutex (Some m)) w1 = (tr2, Done 0 w).
Proof.
  intros Hat Ho Hr HT He' Hw Hpos Hp. pose proof Hat as (Hm & Hs & Hc).
  set (w1 := put_mutex m (claimed e mx) (put_semaphore s (N.pred count) w)).
  assert (Hat1 : lock_at w1 m (claimed e mx) s (N.pred count)).
  { repeat split; try apply lookup_insert_eq. exact Hs. }
  destruct Hat1 as (Hm1 & Hs1 & Hc1).
  eexists _, w1, _.
  split; [apply (run_lock_takes_token e w m mx Hm s count Hs Hc); congruence|].
  rewrite (run_unlock_outermost e' w1 m _ Hm1 s _ Hs1 Hc1); [|by cbn|done].
  rewrite Hp. f_equal. f_equal. subst w1.
  unfold put_semaphore, put_mutex, with_semaphores, with_mutexes, released, claimed,
    set_owner, set_recursive.
  cbn [mutexes semaphores last_error recursive owner sem].
  rewrite !insert_insert_eq, N.succ_pred by lia.
  rewrite (insert_id (semaphores w) s count Hc).
  replace {| recursive := 0; owner := NoOwner; sem := sem mx |} with mx
    by (destruct mx; cbn in *; congruence).
  rewrite (insert_id (mutexes w) m mx Hm). apply world_eta.
Qed.

Lemma free_lock_unlock_round_trip_witness :
  exists tr1 w1 tr2,
    run (thread 1) (SDL_LockMutex (Some 1%positive)) free_lock = (tr1, Done 0 w1) /\
    run (thread 1) (SDL_UnlockMutex (Some 1%positive)) w1 = (tr2, Done 0 free_lock).
Proof.
  apply (free_lock_unlock_round_trip (thread 1) (thread 1) free_lock 1%positive
           1%positive (mkMutex 0 NoOwner (Some 1%positive)) 1%N
           (lock_world_at NoOwner 0 1));
    [reflexivity|reflexivity|discriminate|reflexivity|reflexivity|reflexivity
    |reflexivity].
Defined.

(** * What the lock operations leave alone *)

(** [w'] differs from [w] at most in the mutex object at [m], in the count
    of the semaphore [s] and in the recorded error: the same addresses are
    allocated, and all other objects are equal. *)
Definition same_elsewhere (m s : loc) (w w' : world) : Prop :=
  (forall m', m' <> m -> mutexes w' !! m' = mutexes w !! m') /\
  (forall s', s' <> s -> semaphores w' !! s' = semaphores w !! s') /\
  dom (mutexes w') = dom (mutexes w) /\
  dom (semaphores w') = dom (semaphores w).

Lemma same_elsewhere_refl m s w : same_elsewhere m s w w.
Proof. done. Qed.

Lemma same_elsewhere_trans m s w1 w2 w3 :
  same_elsewhere m s w1 w2 -> same_elsewhere m s w2 w3 -> same_elsewhere m s w1 w3.
Proof.
  intros (A1 & B1 & C1 & D1) (A2 & B2 & C2 & D2). repeat split.
  - intros m' Hne. by rewrite A2, A1.
  - intros s' Hne. by rewrite B2, B1.
  - by rewrite C2.
  - by rewrite D2.
Qed.

Lemma same_elsewhere_put_mutex m s w mx mx' :
  mutexes w !! m = Some mx -> same_elsewhere m s w (put_mutex m mx' w).
Proof.
  intros Hm. repeat split.
  - intros m' Hne. cbn. by apply lookup_insert_ne.
  - cbn. by apply dom_insert_lookup_L.
Qed.

Lemma same_elsewhere_put_semaphore m s w count count' :
  semaphores w !! s = Some count -> same_elsewhere m s w (put_semaphore s count' w).
Proof.
  intros Hc. repeat split.
  - intros s' Hne. cbn. by apply lookup_insert_ne.
  - cbn. by apply dom_insert_lookup_L.
Qed.

(** X11. Whatever a call of SDL_LockMutex, SDL_TryLockMutex or
    SDL_UnlockMutex on the mutex at [m] does, and whether it returns or is
    suspended, it allocates and frees nothing, it leaves every other mutex
    object and every other semaphore untouched, and it never changes the
    [sem] field of the mutex. *)
Theorem lock_operations_frame (o : lock_op) (e : env) (w w' : world) (m s : loc)
    (mx : SDL_Mutex) (count : N) :
  lock_at w m mx s count ->
  world_after (run e (call o (Some m)) w).2 = Some w' ->
  same_elsewhere m s w w' /\
  exists mx' count', lock_at w' m mx' s count'.
Proof.
  intros Hat. pose proof Hat as (Hm & Hs & Hc).
  assert (Hmx : forall mx', sem mx' = Some s ->
            same_elsewhere m s w (put_mutex m mx' w) /\
            exists mx'' count', lock_at (put_mutex m mx' w) m mx'' s count').
  { intros mx' Hs'. split; [by apply (same_elsewhere_put_mutex m s w mx)|].
    exists mx', count. by apply (lock_at_put_mutex w m mx). }
  assert (Hboth : forall mx' c', sem mx' = Some s ->
            same_elsewhere m s w (put_mutex m mx' (put_semaphore s c' w)) /\
            exists mx'' count',
              lock_at (put_mutex m mx' (put_semaphore s c' w)) m mx'' s count').
  { intros mx' c' Hs'. split.
    - eapply same_elsewhere_trans; [by apply (same_elsewhere_put_semaphore m s w count)|].
      by apply (same_elsewhere_put_mutex m s _ mx).
    - exists mx', c'. apply (lock_at_put_mutex _ m mx s c'); [|done].
      by apply (lock_at_put_semaphore w m mx s count c'). }
  assert (Hsame : same_elsewhere m s w w /\ exists mx' count', lock_at w m mx' s count').
  { split; [done|]. by exists mx, count. }
  destruct o; cbn [call].
  - destruct (Z.eq_dec (owner mx) (this_thread e)) as [Ho|Ho].
    + rewrite (run_lock_reentrant e w m mx Hm Ho). intros [= <-]. by apply Hmx.
    + destruct (wait_fails e) eqn:Hw.
      * rewrite (run_lock_wait_fails e w m mx Hm s count Hs Hc Ho Hw). intros [= <-].
        by apply Hmx.
      * destruct (N.ltb_spec 0 count) as [Hpos|Hz].
        -- rewrite (run_lock_takes_token e w m mx Hm s count Hs Hc Ho Hw Hpos).
           intros [= <-]. by apply Hboth.
        -- rewrite (run_lock_blocks e w m mx Hm s count Hs Hc Ho Hw) by lia.
           by intros [= <-].
  - destruct (Z.eq_dec (owner mx) (this_thread e)) as [Ho|Ho].
    + rewrite (run_trylock_reentrant e w m mx Hm Ho). intros [= <-]. by apply Hmx.
    + destruct (wait_fails e) eqn:Hw.
      * rewrite (run_trylock_wait_fails e w m mx Hm s count Hs Hc Ho Hw).
        by intros [= <-].
      * destruct (N.ltb_spec 0 count) as [Hpos|Hz].
        -- rewrite (run_trylock_takes_token e w m mx Hm s count Hs Hc Ho Hw Hpos).
           intros [= <-]. by apply Hboth.
        -- rewrite (run_trylock_blocks e w m mx Hm s count Hs Hc Ho Hw) by lia.
           by intros [= <-].
  - destruct (Z.eq_dec (this_thread e) (owner mx)) as [Ho|Ho].
    + destruct (Z.eq_dec (recursive mx) 0) as [Hr|Hr].
      * rewrite (run_unlock_outermost e w m mx Hm s count Hs Hc Ho Hr).
        destruct (Hmx (released mx) Hs) as [Hel Hlock].
        destruct (post_fails e); intros [= <-]; [done|]. split.
        -- eapply same_elsewhere_trans; [exact Hel|].
           apply (same_elsewhere_put_semaphore m s _ count). exact Hc.
        -- exists (released mx), (N.succ count).
           apply (lock_at_put_semaphore _ m _ s count).
           by apply (lock_at_put_mutex w m mx).
      * rewrite (run_unlock_inner e w m mx Hm Ho Hr). intros [= <-]. by apply Hmx.
    + rewrite (run_unlock_not_owner e w m mx Hm Ho). intros [= <-].
      split; [done|]. by exists mx, count.
Qed.

Lemma lock_operations_frame_witness :
  same_elsewhere 1%positive 1%positive free_lock
    (put_mutex 1%positive (mkMutex 0 1 (Some 1%positive))
       (put_semaphore 1%positive 0 free_lock)) /\
  exists mx' count',
    lock_at (put_mutex 1%positive (mkMutex 0 1 (Some 1%positive))
               (put_semaphore 1%positive 0 free_lock)) 1%positive mx' 1%positive count'.
Proof.
  apply (lock_operations_frame Acquire (thread 1) free_lock _ 1%positive 1%positive
           (mkMutex 0 NoOwner (Some 1%positive)) 1%N (lock_world_at NoOwner 0 1)).
  reflexivity.
Defined.

(** * The token and the owner, when no semaphore call fails *)

(** The worlds a lock at [m] can be in after its creation and any number of
    calls by threads, on a platform whose wait and post never fail. *)
Inductive reachable_without_failure (m : loc) : world -> Prop :=
| rwf_created (e : env) (w0 w : world) :
    (run e SDL_CreateMutex w0).2 = Done (Some m) w ->
    reachable_without_failure m w
| rwf_call (o : lock_op) (e : env) (w w' : world) :
    reachable_without_failure m w ->
    this_thread e <> NoOwner ->
    wait_fails e = false -> post_fails e = false ->
    world_after (run e (call o (Some m)) w).2 = Some w' ->
    reachable_without_failure m w'.

(** The token is in the semaphore exactly when the mutex has no owner, and
    a mutex without owner has a zero counter. *)
Definition token_matches_owner (mx : SDL_Mutex) (count : N) : Prop :=
  (owner mx = NoOwner /\ recursive mx = 0 /\ count = 1%N) \/
  (owner mx <> NoOwner /\ count = 0%N).

Lemma call_keeps_token_matching (o : lock_op) (e : env) (w w' : world) (m s : loc)
    (mx : SDL_Mutex) (count : N) :
  this_thread e <> NoOwner -> wait_fails e = false -> post_fails e = false ->
  lock_at w m mx s count -> token_matches_owner mx count ->
  world_after (run e (call o (Some m)) w).2 = Some w' ->
  exists mx' count', lock_at w' m mx' s count' /\ token_matches_owner mx' count'.
Proof.
  intros HT Hw Hp Hat Htok. pose proof Hat as (Hm & Hs & Hc).
  assert (Hclaim : (0 < count)%N ->
    exists mx' count',
      lock_at (put_mutex m (claimed e mx) (put_semaphore s (N.pred count) w))
        m mx' s count' /\ token_matches_owner mx' count').
  { intros Hpos. exists (claimed e mx), (N.pred count). split.
    - apply (lock_at_put_mutex _ m mx s (N.pred count)); [|done].
      by apply (lock_at_put_semaphore w m mx s count (N.pred count)).
    - right. split; [exact HT|]. destruct Htok as [(_ & _ & ->)|[_ ->]]; lia. }
  assert (Hown : forall v, owner mx <> NoOwner ->
    exists mx' count',
      lock_at (put_mutex m (set_recursive v mx) w) m mx' s count' /\
      token_matches_owner mx' count').
  { intros v Hne. exists (set_recursive v mx), count.
    split; [by apply (lock_at_put_mutex w m mx)|].
    right. split; [done|]. destruct Htok as [(? & _)|[_ ?]]; done. }
  assert (Hstay : exists mx' count', lock_at w m mx' s count' /\
                    token_matches_owner mx' count') by (by exists mx, count).
  destruct o; cbn [call].
  - destruct (Z.eq_dec (owner mx) (this_thread e)) as [Ho|Ho].
    + rewrite (run_lock_reentrant e w m mx Hm Ho). intros [= <-].
      apply Hown. congruence.
    + destruct (N.ltb_spec 0 count) as [Hpos|Hz].
      * rewrite (run_lock_takes_token e w m mx Hm s count Hs Hc Ho Hw Hpos).
        intros [= <-]. by apply Hclaim.
      * rewrite (run_lock_blocks e w m mx Hm s count Hs Hc Ho Hw) by lia.
        by intros [= <-].
  - destruct (Z.eq_dec (owner mx) (this_thread e)) as [Ho|Ho].
    + rewrite (run_trylock_reentrant e w m mx Hm Ho). intros [= <-].
      apply Hown. congruence.
    + destruct (N.ltb_spec 0 count) as [Hpos|Hz].
      * rewrite (run_trylock_takes_token e w m mx Hm s count Hs Hc Ho Hw Hpos).
        intros [= <-]. by apply Hclaim.
      * rewrite (run_trylock_blocks e w m mx Hm s count Hs Hc Ho Hw) by lia.
        by intros [= <-].
  - destruct (Z.eq_dec (this_thread e) (owner mx)) as [Ho|Ho].
    + assert (Hne : owner mx <> NoOwner) by congruence.
      destruct (Z.eq_dec (recursive mx) 0) as [Hr|Hr].
      * rewrite (run_unlock_outermost e w m mx Hm s count Hs Hc Ho Hr), Hp.
        intros [= <-]. exists (released mx), (N.succ count). split.
        -- apply (lock_at_put_semaphore _ m _ s count (N.succ count)).
           by apply (lock_at_put_mutex w m mx s count).
        -- left. split; [done|]. split; [exact Hr|].
           destruct Htok as [(? & _)|[_ ->]]; [done|lia].
      * rewrite (run_unlock_inner e w m mx Hm Ho Hr). intros [= <-]. by apply Hown.
    + rewrite (run_unlock_not_owner e w m mx Hm Ho). intros [= <-].
      exists mx, count. split; [|done]. repeat split; done.
Qed.

(** X12. On a platform whose semaphore calls never fail, in every world
    reached from the creation of the mutex by calls of the three lock
    operations, the semaphore holds its one token exactly when [owner] is
    0, and holds none when the mutex has an owner; a mutex without owner
    has [recursive] = 0. *)
Theorem token_matches_owner_invariant (m : loc) (w : world) :
  reachable_without_failure m w ->
  exists mx s count,
    lock_at w m mx s count /\
    (owner mx = NoOwner -> recursive mx = 0 /\ count = 1%N) /\
    (owner mx <> NoOwner -> count = 0%N).
Proof.
  intros Hreach.
  assert (H : exists mx s count, lock_at w m mx s count /\ token_matches_owner mx count).
  { induction Hreach as [e w0 w Hrun | o e w w' _ IH HT Hw Hp Hcall].
    - destruct (created_lock_at e w0 w m Hrun) as (s & Hat).
      do 3 eexists. split; [exact Hat|]. by left.
    - destruct IH as (mx & s & count & Hat & Htok).
      destruct (call_keeps_token_matching o e w w' m s mx count HT Hw Hp Hat Htok Hcall)
        as (mx' & count' & ? & ?).
      eauto. }
  destruct H as (mx & s & count & Hat & Htok). exists mx, s, count.
  split; [exact Hat|]. destruct Htok as [(Ho & Hr & Hc)|[Ho Hc]]; split; intros; done.
Qed.

Lemma token_matches_owner_invariant_witness :
  exists mx s count,
    lock_at (put_mutex 1%positive (mkMutex 0 1 (Some 1%positive))
               (put_semaphore 1%positive 0 created_world)) 1%positive mx s count /\
    (owner mx = NoOwner -> recursive mx = 0 /\ count = 1%N) /\
    (owner mx <> NoOwner -> count = 0%N).
Proof.
  apply (token_matches_owner_invariant 1%positive).
  apply (rwf_call 1%positive Acquire (thread 1) created_world).
  - apply (rwf_created 1%positive (thread 1) empty_world). reflexivity.
  - discriminate.
  - reflexivity.
  - reflexivity.
  - reflexivity.
Defined.

(** X13. What the discarded wait result costs.  A thread whose
    SDL_WaitSemaphore fails inside SDL_LockMutex on a mutex owned by
    someone else gets 0 all the same; when it then calls SDL_UnlockMutex
    (the post not failing) that call returns 0 too, [owner] is 0 although
    the previous owner never released, and the semaphore holds one token
    more than before the two calls. *)
Theorem failed_wait_then_unlock (e e' : env) (w : world) (m s : loc)
    (mx : SDL_Mutex) (count : N) :
  lock_at w m mx s count ->
  owner mx <> this_thread e -> wait_fails e = true ->
  this_thread e' = this_thread e -> post_fails e' = false ->
  exists w1 w2,
    (run e (SDL_LockMutex (Some m)) w).2 = Done 0 w1 /\
    (run e' (SDL_UnlockMutex (Some m)) w1).2 = Done 0 w2 /\
    lock_at w2 m (mkMutex 0 NoOwner (Some s)) s (N.succ count).
Proof.
  intros Hat Ho Hw He' Hp. pose proof Hat as (Hm & Hs & Hc).
  set (w1 := put_mutex m (claimed e mx) w).
  assert (Hat1 : lock_at w1 m (claimed e mx) s count).
  { by apply (lock_at_put_mutex w m mx). }
  destruct Hat1 as (Hm1 & Hs1 & Hc1).
  exists w1, (put_semaphore s (N.succ count) (put_mutex m (released (claimed e mx)) w1)).
  split; [by rewrite (run_lock_wait_fails e w m mx Hm s count Hs Hc Ho Hw)|].
  split.
  - rewrite (run_unlock_outermost e' w1 m _ Hm1 s count Hs1 Hc1); [|by cbn|done].
    by rewrite Hp.
  - assert (Heq : released (claimed e mx) = mkMutex 0 NoOwner (Some s)).
    { unfold released, claimed, set_owner, set_recursive. cbn. by rewrite Hs. }
    rewrite Heq.
    apply (lock_at_put_semaphore _ m _ s count (N.succ count)).
    by apply (lock_at_put_mutex w1 m (claimed e mx) s count).
Qed.

Lemma failed_wait_then_unlock_witness :
  exists w1 w2,
    (run (thread_wait_failing 2) (SDL_LockMutex (Some 1%positive)) (held_by 1 0)).2 =
      Done 0 w1 /\
    (run (thread 2) (SDL_UnlockMutex (Some 1%positive)) w1).2 = Done 0 w2 /\
    lock_at w2 1%positive (mkMutex 0 NoOwner (Some 1%positive)) 1%positive (N.succ 0).
Proof.
  apply (failed_wait_then_unlock (thread_wait_failing 2) (thread 2) (held_by 1 0)
           1%positive 1%positive (mkMutex 0 1 (Some 1%positive)) 0%N
           (lock_world_at 1 0 0));
    [discriminate|reflexivity|reflexivity|reflexivity].
Defined.

(** * The mutex fields during interleaved executions *)

(** X14. In every interleaved execution in which no wait of SDL_LockMutex
    fails and no counter overflows, at every moment: a thread that
    considers itself the owner is the thread recorded in [owner], and the
    semaphore then holds no token. *)
Theorem owner_field_is_accurate (m s : loc) (w : world) (ls : list label)
    (σ : system) (T : SDL_ThreadID) :
  lock_at w m (mkMutex 0 NoOwner (Some s)) s 1 ->
  safe_execution m (initial w) ls σ ->
  considers_itself_owner σ T ->
  T <> NoOwner /\ exists mx, lock_at (shared σ) m mx s 0 /\ owner mx = T.
Proof.
  intros Hat Hexec HT.
  destruct (safe_execution_Inv m s _ _ _ Hexec (Inv_initial m s w Hat))
    as (mx & count & HInv).
  pose proof (Inv_owner m s σ mx count T HInv HT) as Ho.
  destruct HInv as (Hat' & _ & _ & _ & Hg2 & _ & H0).
  assert (HT0 : T <> NoOwner).
  { intros ->. unfold considers_itself_owner in HT. lia. }
  split; [exact HT0|]. exists mx. split; [|exact Ho].
  by rewrite <- (Hg2 T HT0 (or_introl Ho)).
Qed.

Lemma owner_field_is_accurate_witness :
  (1 : Z) <> NoOwner /\
  exists mx, lock_at (shared one_holds) 1%positive mx 1%positive 0 /\ owner mx = 1.
Proof.
  apply (owner_field_is_accurate 1%positive 1%positive free_lock
           (lock_labels 1 NoOwner 0) one_holds 1 (lock_world_at NoOwner 0 1)
           one_holds_reached).
  unfold considers_itself_owner. vm_compute. lia.
Defined.

(** X15. In every such execution the semaphore of the mutex never holds
    more than one token, the mutex object and its semaphore stay
    allocated, and the mutex keeps the semaphore it was created with. *)
Theorem semaphore_stays_binary (m s : loc) (w : world) (ls : list label) (σ : system) :
  lock_at w m (mkMutex 0 NoOwner (Some s)) s 1 ->
  safe_execution m (initial w) ls σ ->
  exists mx count, lock_at (shared σ) m mx s count /\ (count <= 1)%N.
Proof.
  intros Hat Hexec.
  destruct (safe_execution_Inv m s _ _ _ Hexec (Inv_initial m s w Hat))
    as (mx & count & Hat' & _ & Hle & _).
  by exists mx, count.
Qed.

Lemma semaphore_stays_binary_witness :
  exists mx count,
    lock_at (shared one_holds) 1%positive mx 1%positive count /\ (count <= 1)%N.
Proof.
  exact (semaphore_stays_binary 1%positive 1%positive free_lock
           (lock_labels 1 NoOwner 0) one_holds (lock_world_at NoOwner 0 1)
           one_holds_reached).
Defined.

(** X16. In every such execution, while a thread that considers itself the
    owner is outside any call, [recursive] is the number of acquisitions it
    holds minus one. *)
Theorem recursive_counts_nesting (m s : loc) (w : world) (ls : list label)
    (σ : system) (T : SDL_ThreadID) :
  lock_at w m (mkMutex 0 NoOwner (Some s)) s 1 ->
  safe_execution m (initial w) ls σ ->
  activity_of σ T = Idle ->
  considers_itself_owner σ T ->
  exists mx count,
    lock_at (shared σ) m mx s count /\
    recursive mx = Z.of_nat (holds_of σ T) - 1.
Proof.
  intros Hat Hexec Hidle HT.
  destruct (safe_execution_Inv m s _ _ _ Hexec (Inv_initial m s w Hat))
    as (mx & count & HInv).
  pose proof HInv as (Hat' & _ & _ & Hth & _ & _ & H0).
  assert (HT0 : T <> NoOwner).
  { intros ->. unfold considers_itself_owner in HT. lia. }
  exists mx, count. split; [exact Hat'|].
  pose proof (Hth T HT0) as Hok. rewrite Hidle in Hok.
  inversion Hok as [Hi| | | | | | | | | | | | | | | | | | |].
  unfold idle_ok in Hi. unfold considers_itself_owner in HT. lia.
Qed.

Lemma recursive_counts_nesting_witness :
  exists mx count,
    lock_at (shared one_holds) 1%positive mx 1%positive count /\
    recursive mx = Z.of_nat (holds_of one_holds 1) - 1.
Proof.
  apply (recursive_counts_nesting 1%positive 1%positive free_lock
           (lock_labels 1 NoOwner 0) one_holds 1 (lock_world_at NoOwner 0 1)
           one_holds_reached).
  - reflexivity.
  - unfold considers_itself_owner. vm_compute. lia.
Defined.

(** * Handing the lock over *)

(** X17. While thread T holds the mutex (counter 0, no token left) a call
    of SDL_LockMutex by another thread U is suspended and changes nothing.
    Once T's SDL_UnlockMutex has returned, the same call by U returns 0 and
    U is the owner, with counter 0 and the token taken again. *)
Theorem release_hands_over (eT eU : env) (w : world) (m s : loc) (mx : SDL_Mutex) :
  lock_at w m mx s 0 ->
  owner mx = this_thread eT -> recursive mx = 0 ->
  this_thread eU <> this_thread eT -> this_thread eU <> NoOwner ->
  wait_fails eU = false -> post_fails eT = false ->
  (run eU (SDL_LockMutex (Some m)) w).2 = Blocked w /\
  exists w1 w2,
    (run eT (SDL_UnlockMutex (Some m)) w).2 = Done 0 w1 /\
    (run eU (SDL_LockMutex (Some m)) w1).2 = Done 0 w2 /\
    lock_at w2 m (mkMutex 0 (this_thread eU) (Some s)) s 0.
Proof.
  intros Hat Ho Hr Hne HU Hw Hp. pose proof Hat as (Hm & Hs & Hc). split.
  { rewrite (run_lock_blocks eU w m mx Hm s 0 Hs Hc); [done|congruence|done..]. }
  set (w1 := put_semaphore s (N.succ 0) (put_mutex m (released mx) w)).
  assert (Hat1 : lock_at w1 m (released mx) s (N.succ 0)).
  { apply (lock_at_put_semaphore _ m _ s 0 (N.succ 0)).
    by apply (lock_at_put_mutex w m mx s 0). }
  destruct Hat1 as (Hm1 & Hs1 & Hc1).
  exists w1, (put_mutex m (claimed eU (released mx))
                (put_semaphore s (N.pred (N.succ 0)) w1)).
  split; [|split].
  - rewrite (run_unlock_outermost eT w m mx Hm s 0 Hs Hc); [|done..].
    by rewrite Hp.
  - rewrite (run_lock_takes_token eU w1 m _ Hm1 s _ Hs1 Hc1); [done| |done|done].
    cbn. by apply not_eq_sym.
  - assert (Heq : claimed eU (released mx) = mkMutex 0 (this_thread eU) (Some s)).
    { unfold released, claimed, set_owner, set_recursive. cbn. by rewrite Hs. }
    rewrite Heq. repeat split; apply lookup_insert_eq.
Qed.

Lemma release_hands_over_witness :
  (run (thread 2) (SDL_LockMutex (Some 1%positive)) (held_by 1 0)).2 =
    Blocked (held_by 1 0) /\
  exists w1 w2,
    (run (thread 1) (SDL_UnlockMutex (Some 1%positive)) (held_by 1 0)).2 = Done 0 w1 /\
    (run (thread 2) (SDL_LockMutex (Some 1%positive)) w1).2 = Done 0 w2 /\
    lock_at w2 1%positive (mkMutex 0 2 (Some 1%positive)) 1%positive 0.
Proof.
  apply (release_hands_over (thread 1) (thread 2) (held_by 1 0) 1%positive 1%positive
           (mkMutex 0 1 (Some 1%positive)) (lock_world_at 1 0 0));
    [reflexivity|reflexivity|discriminate|discriminate|reflexivity|reflexivity].
Defined.

(** * Which calls a lock operation makes *)

Definition is_allocation (ev : event) : bool :=
  match ev with
  | EvCalloc _ | EvFree _ | EvCreateSemaphore _ _ | EvDestroySemaphore _ => true
  | _ => false
  end.

(** X18. In every run of a lock operation, on any pointer and in any state
    of memory: at most one semaphore call is made; SDL_LockMutex and
    SDL_TryLockMutex never post, SDL_UnlockMutex never waits; and nothing
    is allocated, freed, created or destroyed. *)
Theorem lock_operations_calls (o : lock_op) (e : env) (w : world) (mutex : ptr) :
  let tr := (run e (call o mutex) w).1 in
  (length (List.filter is_semaphore_op tr) <= 1)%nat /\
  match o with
  | Release => existsb is_wait tr = false
  | Acquire | TryAcquire => existsb is_post tr = false
  end /\
  existsb is_allocation tr = false.
Proof.
  destruct mutex as [m|]; [|destruct o; cbn; repeat split; lia].
  destruct o; cbn [call]; cbv zeta;
    unfold SDL_LockMutex, SDL_TryLockMutex, SDL_UnlockMutex;
    all_traces; cbn; repeat split; try done; lia.
Qed.
